(** * Preconditioned least-squares operators (ristretto / ballistic)

    A shallow embedding of
    [ristretto/ballistic/randlapack/comps/deterministic.py].

    The Python module builds implicit linear operators around an
    upper-triangular preconditioner [R] (or a general matrix [N]),
    hands them to an iterative solver of [scipy.sparse.linalg] and maps
    the solver's answer back to the original variable.  NumPy arrays are
    mutable objects, and the module relies on that (scratch buffers,
    [overwrite_b=True], [out=work]); the embedding therefore keeps an
    explicit store of one-dimensional arrays and threads it through every
    operation, together with the exception that may be raised.

    The first part holds the definitions: scalars, arrays and triangular
    solves, the store, the NumPy and SciPy primitives, the operators and
    the entry points of the module, then the vocabulary of the
    statements.  The second part holds the properties: the linear
    algebra of the solves, the frame of every operation, and the
    statements about the operators and the entry points. *)

From Stdlib Require Import ZArith List Lia Field.
From Stdlib Require Import QArith Qcanon.
From stdpp Require Import base list.
Import ListNotations.

#[local] Unset Default Proof Using.
#[local] Open Scope nat_scope.

(** ** Scalars

    The entries of the arrays.  The operations are the ones the array
    kernels use; [is_zero] is the exact comparison with zero that the
    triangular solver performs on the diagonal and [is_finite] is the
    test behind [check_finite]. *)

Class Scalar (F : Type) := {
  zero : F;
  one : F;
  add : F -> F -> F;
  mul : F -> F -> F;
  sub : F -> F -> F;
  opp : F -> F;
  div : F -> F -> F;
  inv : F -> F;
  is_zero : F -> bool;
  is_finite : F -> bool
}.

(** Exact arithmetic: the scalars form a field, the zero test is exact
    and every value is finite.  The algebraic statements (what a
    triangular solve computes, symmetry of the Gram operator) are made
    under this class; the statements about data flow and about the store
    hold for every [Scalar]. *)

Class ExactScalar (F : Type) `{Scalar F} := {
  scalar_field : field_theory zero one add mul sub opp div inv (@eq F);
  is_zero_spec : forall x : F, is_zero x = true <-> x = zero;
  all_finite : forall x : F, is_finite x = true
}.

(** The canonical rationals are the instance used to run the model. *)

#[export] Instance Qc_Scalar : Scalar Qc := {
  zero := 0%Qc;
  one := 1%Qc;
  add := Qcplus;
  mul := Qcmult;
  sub := Qcminus;
  opp := Qcopp;
  div := Qcdiv;
  inv := Qcinv;
  is_zero := fun x => if Qc_eq_dec x 0%Qc then true else false;
  is_finite := fun _ => true
}.

#[export] Instance Qc_ExactScalar : ExactScalar Qc.
Proof.
  constructor.
  - exact Qcft.
  - intros x. simpl. destruct (Qc_eq_dec x 0%Qc); split; intros; congruence.
  - reflexivity.
Qed.

(** ** Dense arrays *)

Section Arrays.
Context {F : Type} `{Scalar F}.

(** A two-dimensional array is a shape and an indexing function, like
    an [ndarray] is a shape and strided access to a buffer.  The
    matrices [A], [R] and [N] are only ever read by the module. *)
Record ndarray2 := {
  nrows : nat;
  ncols : nat;
  entry : nat -> nat -> F
}.

Definition shape (M : ndarray2) : nat * nat := (nrows M, ncols M).

(** [M.T]: a transposed view. *)
Definition transpose (M : ndarray2) : ndarray2 :=
  {| nrows := ncols M; ncols := nrows M; entry := fun i j => entry M j i |}.

(** Reading a nested list as an array of the given shape. *)
Definition of_rows (n m : nat) (rows : list (list F)) : ndarray2 :=
  {| nrows := n; ncols := m;
     entry := fun i j => nth j (nth i rows []) zero |}.

(** [bigsum f lo len] is [f lo + f (lo+1) + ... + f (lo+len-1)]. *)
Fixpoint bigsum (f : nat -> F) (lo len : nat) : F :=
  match len with
  | 0 => zero
  | S k => add (f lo) (bigsum f (S lo) k)
  end.

Definition vget (x : list F) (i : nat) : F := nth i x zero.

(** Inner product of two one-dimensional arrays of the same length. *)
Definition dot (u v : list F) : F :=
  bigsum (fun i => mul (vget u i) (vget v i)) 0 (length u).

(** The value of [M @ v] for a one-dimensional [v]. *)
Definition matvec_val (M : ndarray2) (v : list F) : list F :=
  map (fun i => bigsum (fun j => mul (entry M i j) (vget v j)) 0 (ncols M))
      (seq 0 (nrows M)).

(** *** Triangular solves

    Modelled from the spec: the triangular solve
    [scipy.linalg.solve_triangular], which the module imports and whose
    body is not part of the repository (spec section 4.1: back
    substitution with an upper-triangular matrix, on the vector itself
    when overwriting is allowed).  Only the upper triangle of the
    matrix is referenced, as with [lower=False]. *)

(** One substitution step on row [i]: the entries [lo .. lo+len-1] of
    [x] are already solved. *)
Definition elim_row (T : nat -> nat -> F) (lo len i : nat) (x : list F)
  : list F :=
  <[ i := div (sub (vget x i)
                   (bigsum (fun j => mul (T i j) (vget x j)) lo len))
              (T i i) ]> x.

(** [R w = x]: rows [m-1] down to [m-k]. *)
Fixpoint back_subst (R : ndarray2) (k : nat) (x : list F) : list F :=
  match k with
  | 0 => x
  | S k' =>
      let i := nrows R - S k' in
      elim_row (entry R) (S i) k' i (back_subst R k' x)
  end.

(** [R^T w = x]: rows [0] up to [k-1]. *)
Fixpoint forward_subst (R : ndarray2) (k : nat) (x : list F) : list F :=
  match k with
  | 0 => x
  | S k' =>
      elim_row (entry (transpose R)) 0 k' k' (forward_subst R k' x)
  end.

(** The [trans] argument: ['N'] (the default [0]) or ['T']. *)
Inductive trans_flag := NoTrans | Trans.

Definition trsv (R : ndarray2) (t : trans_flag) (x : list F) : list F :=
  match t with
  | NoTrans => back_subst R (nrows R) x
  | Trans => forward_subst R (nrows R) x
  end.

(** The solver refuses a matrix with an exact zero on its diagonal. *)
Definition zero_on_diagonal (R : ndarray2) : bool :=
  existsb (fun i => is_zero (entry R i i)) (seq 0 (nrows R)).

Definition all_finite_vec (x : list F) : bool := forallb is_finite x.

Definition all_finite_mat (M : ndarray2) : bool :=
  forallb (fun i => forallb (fun j => is_finite (entry M i j))
                            (seq 0 (ncols M)))
          (seq 0 (nrows M)).

Definition upper_triangular (R : ndarray2) : Prop :=
  forall i j, j < i -> i < nrows R -> entry R i j = zero.

Definition nonsingular_diag (R : ndarray2) : Prop :=
  forall i, i < nrows R -> is_zero (entry R i i) = false.

End Arrays.

Arguments ndarray2 F : clear implicits.

(** ** The store of arrays and the exceptions *)

(** The exceptions that can reach the caller: NumPy's [ValueError]
    (shapes that do not fit, non-finite entries under [check_finite]),
    [LinAlgError] of the triangular solver (singular matrix), and whatever
    the iterative solver raises.  [Dangling] is the read of a reference
    that was never allocated; no Python program can perform it, it only
    makes the model total. *)
Inductive exn :=
| ValueError
| LinAlgError
| SolverError (code : Z)
| Dangling.

Inductive outcome (A : Type) :=
| Ok (a : A)
| Raise (e : exn).
Arguments Ok {A} a.
Arguments Raise {A} e.

(** A computation over a state [S] that returns or raises; the state
    survives a raised exception, as the Python heap does. *)
Definition SE (S A : Type) : Type := S -> outcome A * S.

Definition ret {S A : Type} (a : A) : SE S A := fun s => (Ok a, s).

Definition raise {S A : Type} (e : exn) : SE S A := fun s => (Raise e, s).

Definition bind {S A B : Type} (c : SE S A) (k : A -> SE S B) : SE S B :=
  fun s =>
    match c s with
    | (Ok a, s') => k a s'
    | (Raise e, s') => (Raise e, s')
    end.

Notation "x <- c ;; k" := (bind c (fun x => k))
  (at level 20, c at level 99, k at level 200, only parsing).
Notation "c ;; k" := (bind c (fun _ => k))
  (at level 100, k at level 200, only parsing, right associativity).

(** A reference to a one-dimensional array in the store. *)
Definition ref := nat.

(** The store: the array at reference [r] is the [r]-th element; a new
    array is appended, nothing is ever freed.  All arrays are
    one-dimensional, contiguous and of one element type [F], the doubles
    of the module. *)
Abbreviation heap F := (list (list F)).

Section Program.
Context {F : Type} `{Scalar F}.

Definition HM (A : Type) : Type := SE (heap F) A.

Definition read (r : ref) : HM (list F) :=
  fun h =>
    match h !! r with
    | Some x => (Ok x, h)
    | None => (Raise Dangling, h)
    end.

Definition write (r : ref) (x : list F) : HM unit :=
  fun h => (Ok tt, <[r := x]> h).

Definition alloc (x : list F) : HM ref :=
  fun h => (Ok (length h), h ++ [x]).

(** *** NumPy and SciPy primitives used by the module *)

(** [np.zeros(k)] *)
Definition np_zeros (k : nat) : HM ref := alloc (repeat zero k).

(** [np.copyto(dst, src)]: [src] is broadcast to the shape of [dst]
    (equal lengths, or a single element that is repeated). *)
Definition np_copyto (dst src : ref) : HM unit :=
  d <- read dst ;;
  s <- read src ;;
  if length s =? length d then write dst s
  else if length s =? 1 then write dst (repeat (vget s 0) (length d))
  else raise ValueError.

(** [np.dot(M, v, out=out)]: the product is written into [out], which
    must have exactly the shape of the result. *)
Definition np_dot_out (M : ndarray2 F) (v out : ref) : HM unit :=
  x <- read v ;;
  o <- read out ;;
  if ncols M =? length x then
    if length o =? nrows M then write out (matvec_val M x)
    else raise ValueError
  else raise ValueError.

(** [M @ v]: the product is a new array. *)
Definition matmul (M : ndarray2 F) (v : ref) : HM ref :=
  x <- read v ;;
  if ncols M =? length x then alloc (matvec_val M x)
  else raise ValueError.

(** [y.ravel()] of a one-dimensional contiguous array is that array. *)
Definition ravel (y : ref) : HM ref := ret y.

(** Modelled from the spec: [solve_triangular(R, b, trans, lower=False,
    check_finite=.., overwrite_b=..)] of [scipy.linalg], imported by the
    module and not part of the repository (spec sections 4.1 and 7).
    The inputs are validated ([check_finite], a square matrix, matching
    lengths); a zero on the diagonal is refused with [LinAlgError]
    before anything is written; with [overwrite_b] the solution
    replaces the contents of [b] and [b] is returned, otherwise the
    solution is a new array.  [overwrite_b] is a permission, which
    SciPy uses when [b] is a contiguous array of doubles: LAPACK then
    works in the buffer it is given.  That is what the store holds (the
    scratch buffers come from [np.zeros], the products and solves of
    doubles are doubles), and the module relies on it: it discards the
    returned array and reads [b].  An array of another type, such as
    the integer array that [R @ x0] is for an integer [R] and [x0], is
    solved in a converted copy and left as it is; such arrays are not
    in this store and no statement below is about them.  Every call in
    the module has [lower=False]. *)
Definition solve_triangular (R : ndarray2 F) (b : ref) (t : trans_flag)
    (check_finite overwrite_b : bool) : HM ref :=
  x <- read b ;;
  if check_finite && negb (all_finite_mat R && all_finite_vec x)
  then raise ValueError
  else if negb (nrows R =? ncols R) then raise ValueError
  else if negb (nrows R =? length x) then raise ValueError
  else if zero_on_diagonal R then raise LinAlgError
  else if overwrite_b then write b (trsv R t x) ;; ret b
  else alloc (trsv R t x).

(** *** [scipy.sparse.linalg.LinearOperator] *)

Record LinearOperator := {
  op_shape : nat * nat;
  matvec_impl : ref -> HM ref;
  rmatvec_impl : ref -> HM ref
}.

(** [op.matvec(x)]: the length of [x] is checked against the number of
    columns, the user function is applied and its result is reshaped to
    the number of rows. *)
Definition matvec (op : LinearOperator) (x : ref) : HM ref :=
  xv <- read x ;;
  if length xv =? snd (op_shape op) then
    y <- matvec_impl op x ;;
    yv <- read y ;;
    if length yv =? fst (op_shape op) then ret y else raise ValueError
  else raise ValueError.

(** [op.rmatvec(x)]: the same with rows and columns exchanged. *)
Definition rmatvec (op : LinearOperator) (x : ref) : HM ref :=
  xv <- read x ;;
  if length xv =? fst (op_shape op) then
    y <- rmatvec_impl op x ;;
    yv <- read y ;;
    if length yv =? snd (op_shape op) then ret y else raise ValueError
  else raise ValueError.

(** [LinearOperator(shape=.., matvec=.., rmatvec=..)].  No [dtype] is
    given by the module, so SciPy determines it when the operator is
    built, by applying [matvec] to a vector of zeros. *)
Definition LinearOperator_new (shp : nat * nat)
    (mv rmv : ref -> HM ref) : HM LinearOperator :=
  let op := {| op_shape := shp; matvec_impl := mv; rmatvec_impl := rmv |} in
  v <- np_zeros (snd shp) ;;
  _ <- matvec op v ;;
  ret op.

(** *** [a_times_inv_r] *)

Definition a_times_inv_r_mv (A R : ndarray2 F) (work : ref) (vec : ref)
  : HM ref :=
  np_copyto work vec ;;
  _ <- solve_triangular R work NoTrans false true ;;
  matmul A work.

Definition a_times_inv_r_rmv (A R : ndarray2 F) (work : ref) (vec : ref)
  : HM ref :=
  np_dot_out (transpose A) vec work ;;
  solve_triangular R work Trans false false.

Definition a_times_inv_r (A R : ndarray2 F) : HM LinearOperator :=
  work <- np_zeros (ncols A) ;;
  A_precond <- LinearOperator_new (shape A)
                 (a_times_inv_r_mv A R work) (a_times_inv_r_rmv A R work) ;;
  ret A_precond.

(** *** [lr_precond_gram] *)

Definition lr_precond_gram_mv (A R : ndarray2 F) (work1 work2 : ref)
    (vec : ref) : HM ref :=
  np_copyto work1 vec ;;
  _ <- solve_triangular R work1 NoTrans false true ;;
  np_dot_out A work1 work2 ;;
  np_dot_out (transpose A) work2 work1 ;;
  res <- solve_triangular R work1 Trans false false ;;
  ret res.

Definition lr_precond_gram (A R : ndarray2 F) : HM LinearOperator :=
  work1 <- np_zeros (ncols A) ;;
  work2 <- np_zeros (nrows A) ;;
  AtA_precond <- LinearOperator_new (ncols A, ncols A)
                   (lr_precond_gram_mv A R work1 work2)
                   (lr_precond_gram_mv A R work1 work2) ;;
  ret AtA_precond.

(** *** The iterative solvers *)

(** A component of the result tuple other than the solution. *)
Inductive pyobj :=
| PyInt (z : Z)
| PyFloat (x : F)
| PyArray (r : ref).

(** The result tuple: [result[0]] is the solution array,
    [result[1:]] the diagnostics. *)
Record SolverResult := {
  sol : ref;
  rest : list pyobj
}.

(** An iterative solver as the module calls it: operator, right-hand
    side and the keyword arguments [atol], [btol], [iter_lim], [x0]. *)
Definition solver : Type :=
  LinearOperator -> ref -> F -> F -> Z -> option ref -> HM SolverResult.

Inductive routine := LSQR | CG.

(** What a solver was called with, and the store at that moment. *)
Record solver_call := {
  sc_routine : routine;
  sc_shape : nat * nat;
  sc_rhs : ref;
  sc_atol : F;
  sc_btol : F;
  sc_iter_lim : Z;
  sc_x0 : option ref;
  sc_heap : heap F
}.

(** The entry points run over the store and a record of the calls made
    to the iterative solvers.  The record is ghost state: the solvers
    and the operators work on the store alone. *)
Definition state : Type := heap F * list solver_call.

Definition EM (A : Type) : Type := SE state A.

Definition lift {A : Type} (c : HM A) : EM A :=
  fun s => let (o, h') := c (fst s) in (o, (h', snd s)).

Definition call_solver (rt : routine) (impl : solver)
    (op : LinearOperator) (b : ref) (atol btol : F) (iter_lim : Z)
    (x0 : option ref) : EM SolverResult :=
  fun s =>
    let (o, h') := impl op b atol btol iter_lim x0 (fst s) in
    (o, (h', snd s ++ [ {| sc_routine := rt; sc_shape := op_shape op;
                           sc_rhs := b; sc_atol := atol; sc_btol := btol;
                           sc_iter_lim := iter_lim; sc_x0 := x0;
                           sc_heap := fst s |} ])).

(** [sparla.lsqr] and [sparla.cg] are collaborators of the module: any
    routine of the type [solver].  Both call sites pass the same keyword
    arguments ([atol], [btol], [iter_lim] and, when given, [x0]), the CG
    one as well. *)
Variable lsqr_impl : solver.
Variable cg_impl : solver.

Definition sparla_lsqr := call_solver LSQR lsqr_impl.
Definition sparla_cg := call_solver CG cg_impl.

(** *** [upper_tri_precond_lsqr] *)

Definition upper_tri_precond_lsqr (A : ndarray2 F) (b : ref)
    (R : ndarray2 F) (tol : F) (iter_lim : Z) (x0 : option ref)
  : EM SolverResult :=
  A_precond <- lift (a_times_inv_r A R) ;;
  result <- match x0 with
            | Some x0 =>
                y0 <- lift (y <- matmul R x0 ;; ravel y) ;;
                sparla_lsqr A_precond b tol tol iter_lim (Some y0)
            | None =>
                sparla_lsqr A_precond b tol tol iter_lim None
            end ;;
  _ <- lift (solve_triangular R (sol result) NoTrans true true) ;;
  ret result.

(** *** [pinv_precond_lsqr] *)

Definition pinv_precond_lsqr_mv (A N : ndarray2 F) (work : ref) (vec : ref)
  : HM ref :=
  np_dot_out N vec work ;;
  matmul A work.

Definition pinv_precond_lsqr_rmv (A N : ndarray2 F) (work : ref) (vec : ref)
  : HM ref :=
  np_dot_out (transpose A) vec work ;;
  matmul (transpose N) work.

Definition pinv_precond_lsqr (A : ndarray2 F) (b : ref) (N : ndarray2 F)
    (tol : F) (iter_lim : Z) : EM SolverResult :=
  work <- lift (np_zeros (ncols A)) ;;
  A_precond <- lift (LinearOperator_new (nrows A, ncols N)
                       (pinv_precond_lsqr_mv A N work)
                       (pinv_precond_lsqr_rmv A N work)) ;;
  result <- sparla_lsqr A_precond b tol tol iter_lim None ;;
  x <- lift (matmul N (sol result)) ;;
  ret {| sol := x; rest := rest result |}.

(** *** [upper_tri_precond_cg] *)

Definition upper_tri_precond_cg (A : ndarray2 F) (b : ref)
    (R : ndarray2 F) (tol : F) (iter_lim : Z) (x0 : option ref)
  : EM SolverResult :=
  AtA_precond <- lift (lr_precond_gram A R) ;;
  b_precond <- lift (solve_triangular R b Trans false false) ;;
  result <- match x0 with
            | Some x0 =>
                y0 <- lift (y <- matmul R x0 ;; ravel y) ;;
                sparla_cg AtA_precond b_precond tol tol iter_lim (Some y0)
            | None =>
                sparla_cg AtA_precond b_precond tol tol iter_lim None
            end ;;
  _ <- lift (solve_triangular R (sol result) NoTrans true true) ;;
  ret result.

End Program.

Arguments LinearOperator F : clear implicits.
Arguments SolverResult F : clear implicits.
Arguments solver_call F : clear implicits.
Arguments solver F : clear implicits.
Arguments state F : clear implicits.
Arguments HM F A : clear implicits.
Arguments EM F A : clear implicits.

(** ** Vocabulary of the statements *)

Section Vocabulary.
Context {F : Type} `{Scalar F}.

Implicit Types (h : heap F) (r : ref) (A R N : ndarray2 F).

(** [modifies ws h h']: the store only grew, and of the arrays that
    existed in [h] only those in [ws] may have changed. *)
Definition modifies (ws : list ref) (h h' : heap F) : Prop :=
  length h <= length h' /\
  forall r, r < length h -> ~ In r ws -> h' !! r = h !! r.

Definition touches {A : Type} (ws : list ref) (c : HM F A) : Prop :=
  forall h, modifies ws h (snd (c h)).

(** The conditions under which the triangular solver accepts its
    arguments. *)
Definition accepted (R : ndarray2 F) (x : list F) (check_finite : bool)
  : Prop :=
  (check_finite = true -> all_finite_mat R && all_finite_vec x = true) /\
  nrows R = ncols R /\
  nrows R = length x /\
  zero_on_diagonal R = false.

(** The scratch buffer [work] is an array of length [k] in [h]. *)
Definition scratch (h : heap F) (work : ref) (k : nat) : Prop :=
  exists buf, h !! work = Some buf /\ length buf = k.

(** The four steps of the Gram operator, as values. *)
Definition gram_val A R (x : list F) : list F :=
  trsv R Trans
    (matvec_val (transpose A) (matvec_val A (trsv R NoTrans x))).

(** The operator that [a_times_inv_r] returns when its scratch buffer is
    [work]. *)
Definition a_times_inv_r_op A R (work : ref) : LinearOperator F :=
  {| op_shape := shape A;
     matvec_impl := a_times_inv_r_mv A R work;
     rmatvec_impl := a_times_inv_r_rmv A R work |}.

(** The operator that [lr_precond_gram] returns when its scratch buffers
    are [work1] and [work2]. *)
Definition lr_precond_gram_op A R (work1 work2 : ref) : LinearOperator F :=
  {| op_shape := (ncols A, ncols A);
     matvec_impl := lr_precond_gram_mv A R work1 work2;
     rmatvec_impl := lr_precond_gram_mv A R work1 work2 |}.

(** The operator that [pinv_precond_lsqr] builds when its scratch buffer
    is [work]. *)
Definition pinv_precond_lsqr_op A N (work : ref) : LinearOperator F :=
  {| op_shape := (nrows A, ncols N);
     matvec_impl := pinv_precond_lsqr_mv A N work;
     rmatvec_impl := pinv_precond_lsqr_rmv A N work |}.

(** The call that [call_solver] records. *)
Definition recorded (rt : routine) (op : LinearOperator F) (b : ref)
    (atol btol : F) (iter_lim : Z) (x0 : option ref) (h : heap F)
  : solver_call F :=
  {| sc_routine := rt; sc_shape := op_shape op; sc_rhs := b;
     sc_atol := atol; sc_btol := btol; sc_iter_lim := iter_lim;
     sc_x0 := x0; sc_heap := h |}.

(** [keeps_log c]: [c] does not call a solver. *)
Definition keeps_log {X} (c : EM F X) : Prop :=
  forall s, snd (snd (c s)) = snd s.

(** The initial guess is usable: an array of the length that [R @ x0]
    needs. *)
Definition guess_fits R (x0 : option ref) (h : heap F) : Prop :=
  match x0 with
  | Some p => exists xv, h !! p = Some xv /\ length xv = ncols R
  | None => True
  end.

(** What a call carries as initial guess: for [x0] holding [xv], a new
    array holding [R @ xv]; for no [x0], nothing. *)
Definition carries_guess R (x0 : option ref) (h : heap F)
    (call : solver_call F) : Prop :=
  match x0 with
  | Some p =>
      forall xv, h !! p = Some xv ->
        exists y0, sc_x0 call = Some y0 /\ h !! y0 = None /\
                   sc_heap call !! y0 = Some (matvec_val R xv)
  | None => sc_x0 call = None
  end.

(** [returns_fresh c]: the array that [c] returns did not exist when
    [c] was started. *)
Definition returns_fresh (c : HM F ref) : Prop :=
  forall h r h', c h = (Ok r, h') -> length h <= r.

(** An application [app] with scratch buffers [ws]: of the arrays that
    exist it writes only those in [ws]; an input array that is not a
    scratch buffer holds after the call what it held before; and the
    array returned is new, so it is not a scratch buffer either. *)
Definition private_scratch (ws : list ref) (app : ref -> HM F ref) : Prop :=
  forall h vec,
    modifies ws h (snd (app vec h)) /\
    (forall xv, h !! vec = Some xv -> ~ In vec ws ->
                snd (app vec h) !! vec = Some xv) /\
    (forall r, fst (app vec h) = Ok r -> length h <= r).

(** *** Further vocabulary *)

(** The values of the forward and of the adjoint map of
    [a_times_inv_r]. *)
Definition forward_val A R (x : list F) : list F :=
  matvec_val A (trsv R NoTrans x).

Definition adjoint_val A R (x : list F) : list F :=
  trsv R Trans (matvec_val (transpose A) x).

(** The identity matrix of order [m]. *)
Definition eye (m : nat) : ndarray2 F :=
  {| nrows := m; ncols := m;
     entry := fun i j => if i =? j then one else zero |}.

(** How a solver uses an operator: a sequence of forward and adjoint
    applications, each to some array; an application that raises leaves
    the store as it is at that point. *)
Inductive application := Forward (v : ref) | Adjoint (u : ref).

Definition apply_op (op : LinearOperator F) (a : application) : HM F ref :=
  match a with
  | Forward v => matvec op v
  | Adjoint u => rmatvec op u
  end.

Fixpoint apply_all (op : LinearOperator F) (l : list application)
    (h : heap F) : heap F :=
  match l with
  | [] => h
  | a :: l' => apply_all op l' (snd (apply_op op a h))
  end.

(** *** Stand-ins for the iterative solver *)

(** A solver that stops at once and returns its initial iterate: the
    initial guess, or zeros of the operator's column count.  This is
    what an LSQR routine does with a right-hand side of norm zero and no
    initial guess; the operator is not applied. *)
Definition initial_iterate_solver : solver F :=
  fun op b atol btol iter_lim x0 =>
    match x0 with
    | Some y0 => ret {| sol := y0; rest := [PyInt 0; PyInt 0] |}
    | None =>
        x <- np_zeros (snd (op_shape op)) ;;
        ret {| sol := x; rest := [PyInt 0; PyInt 0] |}
    end.

(** A solver that applies the adjoint of the operator to the right-hand
    side once and returns the result. *)
Definition one_adjoint_solver : solver F :=
  fun op b atol btol iter_lim x0 =>
    x <- rmatvec op b ;;
    ret {| sol := x; rest := [PyInt 1; PyInt 1] |}.

(** A solver that raises [e] at once. *)
Definition raising_solver (e : exn) : solver F :=
  fun op b atol btol iter_lim x0 => raise e.

End Vocabulary.

Section Failing.
Context {S : Type}.

(** [fails c]: whatever the state, [c] raises. *)
Definition fails {A : Type} (c : SE S A) : Prop :=
  forall s, exists e s', c s = (Raise e, s').

End Failing.

(** ** A small instance over the rationals *)

Module Demo.

Definition q (z : Z) : Qc := Q2Qc (inject_Z z).

(** [A = [[1,0],[0,1],[1,1]]], [R = [[2,1],[0,3]]], [N = [[1,1],[0,1]]]. *)
Definition A : ndarray2 Qc :=
  of_rows 3 2 [[q 1; q 0]; [q 0; q 1]; [q 1; q 1]].
Definition R : ndarray2 Qc := of_rows 2 2 [[q 2; q 1]; [q 0; q 3]].
Definition N : ndarray2 Qc := of_rows 2 2 [[q 1; q 1]; [q 0; q 1]].

(** [R] with its last diagonal entry replaced by zero. *)
Definition R_singular : ndarray2 Qc := of_rows 2 2 [[q 2; q 1]; [q 0; q 0]].


(** The store: a vector of length 2 at reference 0, one of length 3 at
    reference 1, a zero vector of length 2 at reference 2. *)
Definition h : list (list Qc) :=
  [[q 6; q 9]; [q 1; q 2; q 3]; [q 0; q 0]].

Definition tol : Qc := q 1.

Definition values (o : option (list Qc)) : option (list Q) :=
  option_map (map this) o.

End Demo.

(** * Properties *)

(** ** Linear algebra of the array kernels (exact arithmetic) *)

Section Algebra.
Context {F : Type} `{ExactScalar F}.

Add Field scalar_field_tac : scalar_field.

Lemma nonzero_of_is_zero (x : F) : is_zero x = false -> x <> zero.
Proof.
  intros Hz Hx. apply is_zero_spec in Hx. congruence.
Qed.

Lemma bigsum_ext (f g : nat -> F) (lo len : nat) :
  (forall j, lo <= j < lo + len -> f j = g j) ->
  bigsum f lo len = bigsum g lo len.
Proof.
  revert lo. induction len as [|len IH]; intros lo Hfg; simpl.
  - reflexivity.
  - rewrite (Hfg lo) by lia. rewrite (IH (S lo)); [reflexivity|].
    intros j Hj. apply Hfg. lia.
Qed.

Lemma bigsum_zero (f : nat -> F) (lo len : nat) :
  (forall j, lo <= j < lo + len -> f j = zero) ->
  bigsum f lo len = zero.
Proof.
  revert lo. induction len as [|len IH]; intros lo Hf; simpl.
  - reflexivity.
  - rewrite (Hf lo) by lia. rewrite IH; [ring|].
    intros j Hj. apply Hf. lia.
Qed.

Lemma bigsum_split (f : nat -> F) (lo a b : nat) :
  bigsum f lo (a + b) = add (bigsum f lo a) (bigsum f (lo + a) b).
Proof.
  revert lo. induction a as [|a IH]; intros lo; simpl.
  - replace (lo + 0) with lo by lia. ring.
  - rewrite IH. replace (S lo + a) with (lo + S a) by lia. ring.
Qed.

Lemma bigsum_add (f g : nat -> F) (lo len : nat) :
  bigsum (fun j => add (f j) (g j)) lo len
  = add (bigsum f lo len) (bigsum g lo len).
Proof.
  revert lo. induction len as [|len IH]; intros lo; simpl.
  - ring.
  - rewrite IH. ring.
Qed.

Lemma bigsum_scale_r (f : nat -> F) (c : F) (lo len : nat) :
  bigsum (fun j => mul (f j) c) lo len = mul (bigsum f lo len) c.
Proof.
  revert lo. induction len as [|len IH]; intros lo; simpl.
  - ring.
  - rewrite IH. ring.
Qed.

Lemma bigsum_scale_l (f : nat -> F) (c : F) (lo len : nat) :
  bigsum (fun j => mul c (f j)) lo len = mul c (bigsum f lo len).
Proof.
  revert lo. induction len as [|len IH]; intros lo; simpl.
  - ring.
  - rewrite IH. ring.
Qed.

(** Exchanging the order of a double sum. *)
Lemma bigsum_exchange (f : nat -> nat -> F) (n m : nat) :
  bigsum (fun i => bigsum (fun j => f i j) 0 m) 0 n
  = bigsum (fun j => bigsum (fun i => f i j) 0 n) 0 m.
Proof.
  generalize 0 at 1 4 as lo. generalize 0 as lo'.
  induction n as [|n IH]; intros lo' lo; simpl.
  - symmetry. apply bigsum_zero. reflexivity.
  - rewrite bigsum_add. rewrite IH. reflexivity.
Qed.

(** Taking one index out of a sum over [0 .. m-1]. *)
Lemma bigsum_pick (f : nat -> F) (m i : nat) :
  i < m ->
  bigsum f 0 m
  = add (bigsum f 0 i) (add (f i) (bigsum f (S i) (m - S i))).
Proof.
  intros Hi. replace m with (i + S (m - S i)) at 1 by lia.
  rewrite bigsum_split. simpl. reflexivity.
Qed.

Lemma length_matvec_val (M : ndarray2 F) (v : list F) :
  length (matvec_val M v) = nrows M.
Proof. unfold matvec_val. rewrite length_map, length_seq. reflexivity. Qed.

Lemma nth_map_seq (g : nat -> F) (n i : nat) :
  i < n -> nth i (map g (seq 0 n)) zero = g i.
Proof.
  intros Hi.
  rewrite (nth_indep _ zero (g 0)) by (rewrite length_map, length_seq; lia).
  rewrite (map_nth g). rewrite seq_nth by lia. reflexivity.
Qed.

Lemma vget_matvec_val (M : ndarray2 F) (v : list F) (i : nat) :
  i < nrows M ->
  vget (matvec_val M v) i
  = bigsum (fun j => mul (entry M i j) (vget v j)) 0 (ncols M).
Proof.
  intros Hi. unfold vget at 1. unfold matvec_val.
  rewrite nth_map_seq by lia. reflexivity.
Qed.

Lemma vec_ext (u v : list F) :
  length u = length v ->
  (forall i, i < length u -> vget u i = vget v i) ->
  u = v.
Proof.
  intros Hlen Hnth. apply (nth_ext u v zero zero Hlen). exact Hnth.
Qed.

(** [<M x, y> = <x, M^T y>]. *)
Lemma dot_adjoint (M : ndarray2 F) (x y : list F) :
  length x = ncols M ->
  dot (matvec_val M x) y = dot x (matvec_val (transpose M) y).
Proof.
  intros Hx. unfold dot. rewrite length_matvec_val, Hx.
  rewrite (bigsum_ext _
    (fun i => bigsum (fun j => mul (mul (entry M i j) (vget x j)) (vget y i))
                     0 (ncols M))).
  2:{ intros i Hi. rewrite vget_matvec_val by lia.
      rewrite <- bigsum_scale_r. reflexivity. }
  rewrite bigsum_exchange. apply bigsum_ext. intros j Hj.
  rewrite vget_matvec_val by (simpl; lia). simpl.
  rewrite <- bigsum_scale_l. apply bigsum_ext. intros i Hi. ring.
Qed.

Lemma dot_comm (u v : list F) :
  length u = length v -> dot u v = dot v u.
Proof.
  intros Hlen. unfold dot. rewrite Hlen. apply bigsum_ext.
  intros i Hi. ring.
Qed.

(** *** What the substitution sweeps compute *)

Lemma vget_insert_eq (x : list F) (i : nat) (a : F) :
  i < length x -> vget (<[i := a]> x) i = a.
Proof.
  intros Hi. unfold vget. rewrite nth_lookup.
  rewrite list_lookup_insert_eq by exact Hi. reflexivity.
Qed.

Lemma vget_insert_ne (x : list F) (i j : nat) (a : F) :
  i <> j -> vget (<[i := a]> x) j = vget x j.
Proof.
  intros Hij. unfold vget. rewrite !nth_lookup.
  rewrite list_lookup_insert_ne by exact Hij. reflexivity.
Qed.

Lemma length_elim_row (T : nat -> nat -> F) (lo len i : nat) (x : list F) :
  length (elim_row T lo len i x) = length x.
Proof. unfold elim_row. apply length_insert. Qed.

Lemma length_back_subst (R : ndarray2 F) (k : nat) (x : list F) :
  length (back_subst R k x) = length x.
Proof.
  induction k as [|k IH]; simpl; [reflexivity|].
  rewrite length_elim_row. exact IH.
Qed.

Lemma length_forward_subst (R : ndarray2 F) (k : nat) (x : list F) :
  length (forward_subst R k x) = length x.
Proof.
  induction k as [|k IH]; simpl; [reflexivity|].
  rewrite length_elim_row. exact IH.
Qed.

Lemma length_trsv (R : ndarray2 F) (t : trans_flag) (x : list F) :
  length (trsv R t x) = length x.
Proof.
  destruct t; simpl; [apply length_back_subst | apply length_forward_subst].
Qed.

Section Triangular.
Variable R : ndarray2 F.
Hypothesis R_square : ncols R = nrows R.
Hypothesis R_upper : upper_triangular R.
Hypothesis R_diag : nonsingular_diag R.

Let m := nrows R.

(** After [k] steps of back substitution the last [k] equations of
    [R w = x] hold and the first [m - k] entries are untouched. *)
Lemma back_subst_invariant (x : list F) (k : nat) :
  length x = m -> k <= m ->
  (forall i, i < m - k -> vget (back_subst R k x) i = vget x i) /\
  (forall i, m - k <= i < m ->
     add (mul (entry R i i) (vget (back_subst R k x) i))
         (bigsum (fun j => mul (entry R i j) (vget (back_subst R k x) j))
                 (S i) (m - S i))
     = vget x i).
Proof.
  intros Hx. induction k as [|k IH]; intros Hk.
  - simpl. split; [reflexivity | intros i Hi; lia].
  - destruct IH as [IHlo IHhi]; [lia|].
    simpl. fold m. set (i0 := m - S k). set (w := back_subst R k x) in *.
    assert (Hw : length w = m)
      by (unfold w; rewrite length_back_subst; exact Hx).
    assert (Hi0 : i0 < m) by (unfold i0; lia).
    split.
    + intros i Hi. unfold elim_row.
      rewrite vget_insert_ne by (unfold i0 in *; lia).
      apply IHlo. unfold i0 in *; lia.
    + intros i Hi.
      destruct (Nat.eq_dec i i0) as [->|Hne].
      * unfold elim_row at 1. rewrite vget_insert_eq by lia.
        rewrite (bigsum_ext
                   (fun j => mul (entry R i0 j)
                                 (vget (elim_row (entry R) (S i0) k i0 w) j))
                   (fun j => mul (entry R i0 j) (vget w j)))
          by (intros j Hj; unfold elim_row;
              rewrite vget_insert_ne by lia; reflexivity).
        replace (m - S i0) with k by (unfold i0; lia).
        rewrite (IHlo i0) by (unfold i0; lia).
        assert (Hnz : entry R i0 i0 <> zero)
          by (apply nonzero_of_is_zero, R_diag; exact Hi0).
        field. exact Hnz.
      * unfold elim_row. rewrite vget_insert_ne by lia.
        rewrite (bigsum_ext _
                   (fun j => mul (entry R i j) (vget w j)))
          by (intros j Hj; rewrite vget_insert_ne by (unfold i0 in *; lia);
              reflexivity).
        apply IHhi. unfold i0 in *; lia.
Qed.

(** Back substitution solves [R w = x]. *)
Lemma back_subst_solves (x : list F) :
  length x = m -> matvec_val R (trsv R NoTrans x) = x.
Proof.
  intros Hx. simpl. fold m.
  destruct (back_subst_invariant x m Hx (Nat.le_refl m)) as [_ Hhi].
  apply vec_ext.
  - rewrite length_matvec_val. fold m. lia.
  - intros i Hi. rewrite length_matvec_val in Hi. fold m in Hi.
    rewrite vget_matvec_val by exact Hi. rewrite R_square. fold m.
    rewrite (bigsum_pick _ m i Hi).
    rewrite bigsum_zero.
    2:{ intros j Hj. rewrite R_upper by (fold m; lia). ring. }
    rewrite <- (Hhi i) by lia. ring.
Qed.

(** After [k] steps of forward substitution the first [k] equations
    of [R^T w = x] hold and the other entries are untouched. *)
Lemma forward_subst_invariant (x : list F) (k : nat) :
  length x = m -> k <= m ->
  (forall i, k <= i -> vget (forward_subst R k x) i = vget x i) /\
  (forall i, i < k ->
     add (bigsum (fun j => mul (entry R j i) (vget (forward_subst R k x) j))
                 0 i)
         (mul (entry R i i) (vget (forward_subst R k x) i))
     = vget x i).
Proof.
  intros Hx. induction k as [|k IH]; intros Hk.
  - simpl. split; [reflexivity | intros i Hi; lia].
  - destruct IH as [IHhi IHlo]; [lia|].
    simpl. set (w := forward_subst R k x) in *.
    assert (Hw : length w = m)
      by (unfold w; rewrite length_forward_subst; exact Hx).
    split.
    + intros i Hi. unfold elim_row.
      rewrite vget_insert_ne by lia. apply IHhi. lia.
    + intros i Hi.
      destruct (Nat.eq_dec i k) as [->|Hne].
      * unfold elim_row at 2. rewrite vget_insert_eq by lia.
        rewrite (bigsum_ext
                   (fun j => mul (entry R j k)
                                 (vget (elim_row (entry (transpose R)) 0 k k w) j))
                   (fun j => mul (entry R j k) (vget w j)))
          by (intros j Hj; unfold elim_row;
              rewrite vget_insert_ne by lia; reflexivity).
        simpl. rewrite (IHhi k) by lia.
        assert (Hnz : entry R k k <> zero)
          by (apply nonzero_of_is_zero, R_diag; fold m; lia).
        field. exact Hnz.
      * unfold elim_row. rewrite vget_insert_ne by lia.
        rewrite (bigsum_ext _
                   (fun j => mul (entry R j i) (vget w j)))
          by (intros j Hj; rewrite vget_insert_ne by lia; reflexivity).
        apply IHlo. lia.
Qed.

(** Forward substitution solves [R^T w = x]. *)
Lemma forward_subst_solves (x : list F) :
  length x = m -> matvec_val (transpose R) (trsv R Trans x) = x.
Proof.
  intros Hx. simpl. fold m.
  destruct (forward_subst_invariant x m Hx (Nat.le_refl m)) as [_ Hlo].
  apply vec_ext.
  - rewrite length_matvec_val. simpl. rewrite R_square. fold m. lia.
  - intros i Hi. rewrite length_matvec_val in Hi. simpl in Hi.
    rewrite R_square in Hi. fold m in Hi.
    rewrite vget_matvec_val by (simpl; rewrite R_square; exact Hi).
    simpl. fold m.
    rewrite (bigsum_pick _ m i Hi).
    rewrite (bigsum_zero _ (S i)).
    2:{ intros j Hj. rewrite R_upper by (fold m; lia). ring. }
    rewrite <- (Hlo i) by lia. ring.
Qed.

(** Back substitution undoes multiplication by [R]. *)
Lemma back_subst_matvec_invariant (x : list F) (k : nat) :
  length x = m -> k <= m ->
  (forall i, i < m - k ->
     vget (back_subst R k (matvec_val R x)) i = vget (matvec_val R x) i) /\
  (forall i, m - k <= i < m ->
     vget (back_subst R k (matvec_val R x)) i = vget x i).
Proof.
  intros Hx. induction k as [|k IH]; intros Hk.
  - simpl. split; [reflexivity | intros i Hi; lia].
  - destruct IH as [IHlo IHhi]; [lia|].
    simpl. fold m. set (i0 := m - S k).
    set (w := back_subst R k (matvec_val R x)) in *.
    assert (Hw : length w = m).
    { unfold w. rewrite length_back_subst, length_matvec_val. reflexivity. }
    assert (Hi0 : i0 < m) by (unfold i0; lia).
    split.
    + intros i Hi. unfold elim_row.
      rewrite vget_insert_ne by (unfold i0 in *; lia).
      apply IHlo. unfold i0 in *; lia.
    + intros i Hi.
      destruct (Nat.eq_dec i i0) as [->|Hne].
      * unfold elim_row. rewrite vget_insert_eq by lia.
        rewrite (IHlo i0) by (unfold i0; lia).
        rewrite vget_matvec_val by exact Hi0. rewrite R_square. fold m.
        rewrite (bigsum_pick _ m i0 Hi0).
        rewrite bigsum_zero.
        2:{ intros j Hj. rewrite R_upper by (fold m; lia). ring. }
        replace (m - S i0) with k by (unfold i0; lia).
        rewrite (bigsum_ext (fun j => mul (entry R i0 j) (vget w j))
                            (fun j => mul (entry R i0 j) (vget x j))).
        2:{ intros j Hj. rewrite IHhi by (unfold i0 in *; lia).
            reflexivity. }
        assert (Hnz : entry R i0 i0 <> zero)
          by (apply nonzero_of_is_zero, R_diag; exact Hi0).
        field. exact Hnz.
      * unfold elim_row. rewrite vget_insert_ne by lia.
        apply IHhi. unfold i0 in *; lia.
Qed.

Lemma back_subst_matvec (x : list F) :
  length x = m -> trsv R NoTrans (matvec_val R x) = x.
Proof.
  intros Hx. simpl. fold m.
  destruct (back_subst_matvec_invariant x m Hx (Nat.le_refl m)) as [_ Hhi].
  apply vec_ext.
  - rewrite length_back_subst, length_matvec_val. fold m. lia.
  - intros i Hi.
    rewrite length_back_subst, length_matvec_val in Hi. fold m in Hi.
    apply Hhi. lia.
Qed.

(** The solution of [R w = x] is unique, so [trsv R NoTrans x] is
    [R^-1 x]. *)
Lemma back_subst_unique (x w : list F) :
  length w = m -> matvec_val R w = x -> w = trsv R NoTrans x.
Proof.
  intros Hw <-. symmetry. apply back_subst_matvec. exact Hw.
Qed.

(** Forward substitution undoes multiplication by [R^T]. *)
Lemma forward_subst_matvec_invariant (y : list F) (k : nat) :
  length y = m -> k <= m ->
  (forall i, k <= i ->
     vget (forward_subst R k (matvec_val (transpose R) y)) i
     = vget (matvec_val (transpose R) y) i) /\
  (forall i, i < k ->
     vget (forward_subst R k (matvec_val (transpose R) y)) i = vget y i).
Proof.
  intros Hy. induction k as [|k IH]; intros Hk.
  - simpl. split; [reflexivity | intros i Hi; lia].
  - destruct IH as [IHhi IHlo]; [lia|].
    simpl. set (w := forward_subst R k (matvec_val (transpose R) y)) in *.
    assert (Hw : length w = m).
    { unfold w. rewrite length_forward_subst, length_matvec_val.
      simpl. exact R_square. }
    split.
    + intros i Hi. unfold elim_row.
      rewrite vget_insert_ne by lia. apply IHhi. lia.
    + intros i Hi.
      destruct (Nat.eq_dec i k) as [->|Hne].
      * unfold elim_row. rewrite vget_insert_eq by lia.
        rewrite (IHhi k) by lia.
        rewrite vget_matvec_val by (simpl; rewrite R_square; fold m; lia).
        simpl. fold m.
        rewrite (bigsum_pick _ m k) by lia.
        rewrite (bigsum_zero _ (S k)).
        2:{ intros j Hj. rewrite R_upper by (fold m; lia). ring. }
        rewrite (bigsum_ext (fun j => mul (entry R j k) (vget w j))
                            (fun j => mul (entry R j k) (vget y j))).
        2:{ intros j Hj. rewrite IHlo by lia. reflexivity. }
        assert (Hnz : entry R k k <> zero)
          by (apply nonzero_of_is_zero, R_diag; fold m; lia).
        field. exact Hnz.
      * unfold elim_row. rewrite vget_insert_ne by lia.
        apply IHlo. lia.
Qed.

Lemma forward_subst_matvec (y : list F) :
  length y = m -> trsv R Trans (matvec_val (transpose R) y) = y.
Proof.
  intros Hy. simpl. fold m.
  destruct (forward_subst_matvec_invariant y m Hy (Nat.le_refl m))
    as [_ Hlo].
  apply vec_ext.
  - rewrite length_forward_subst, length_matvec_val. simpl.
    rewrite R_square. fold m. lia.
  - intros i Hi.
    rewrite length_forward_subst, length_matvec_val in Hi. simpl in Hi.
    apply Hlo. rewrite R_square in Hi. exact Hi.
Qed.

(** The solution of [R^T w = x] is unique, so [trsv R Trans x] is
    [R^-T x]. *)
Lemma forward_subst_unique (x w : list F) :
  length w = m -> matvec_val (transpose R) w = x -> w = trsv R Trans x.
Proof.
  intros Hw <-. symmetry. apply forward_subst_matvec. exact Hw.
Qed.

End Triangular.

End Algebra.

(** ** Reasoning about computations on the store *)

Section Monad.
Context {S A B : Type}.

Lemma bind_ok (c : SE S A) (k : A -> SE S B) (s s' : S) (a : A) :
  c s = (Ok a, s') -> bind c k s = k a s'.
Proof. intros Hc. unfold bind. rewrite Hc. reflexivity. Qed.

Lemma bind_raise (c : SE S A) (k : A -> SE S B) (s s' : S) (e : exn) :
  c s = (Raise e, s') -> bind c k s = (Raise e, s').
Proof. intros Hc. unfold bind. rewrite Hc. reflexivity. Qed.

Lemma bind_inv_ok (c : SE S A) (k : A -> SE S B) (s s'' : S) (b : B) :
  bind c k s = (Ok b, s'') ->
  exists a s', c s = (Ok a, s') /\ k a s' = (Ok b, s'').
Proof.
  unfold bind. destruct (c s) as [[a|e] s'] eqn:Hc; intros Hk.
  - exists a, s'. split; [reflexivity | exact Hk].
  - discriminate.
Qed.
End Monad.

Section Frames.
Context {F : Type} `{Scalar F}.

Implicit Types (h : heap F) (r : ref) (x : list F).

#[local] Abbreviation touches := (@touches F).

Lemma modifies_refl ws h : modifies ws h h.
Proof. split; [lia | reflexivity]. Qed.

Lemma modifies_trans ws h1 h2 h3 :
  modifies ws h1 h2 -> modifies ws h2 h3 -> modifies ws h1 h3.
Proof.
  intros [L12 E12] [L23 E23]. split; [lia|].
  intros r Hr Hws. rewrite E23 by (lia || exact Hws). apply E12; assumption.
Qed.

(** Arrays allocated after [h1] do not count as modified. *)
Lemma modifies_fresh ws ws' h1 h2 h3 :
  modifies ws h1 h2 -> modifies ws' h2 h3 ->
  (forall w, In w ws' -> In w ws \/ length h1 <= w) ->
  modifies ws h1 h3.
Proof.
  intros [L12 E12] [L23 E23] Hfresh. split; [lia|].
  intros r Hr Hws. rewrite E23.
  - apply E12; assumption.
  - lia.
  - intros Hin. destruct (Hfresh r Hin); [contradiction | lia].
Qed.

Lemma modifies_lookup ws h h' r x :
  modifies ws h h' -> h !! r = Some x -> ~ In r ws -> h' !! r = Some x.
Proof.
  intros [_ E] Hr Hws. rewrite E; [exact Hr | | exact Hws].
  apply lookup_lt_Some in Hr. exact Hr.
Qed.

Lemma modifies_insert ws h r x : In r ws -> modifies ws h (<[r := x]> h).
Proof.
  intros Hin. split; [rewrite length_insert; lia|].
  intros r' Hr' Hws. apply list_lookup_insert_ne. congruence.
Qed.

Lemma modifies_app ws h x : modifies ws h (h ++ [x]).
Proof.
  split; [rewrite length_app; simpl; lia|].
  intros r Hr _. apply lookup_app_l. exact Hr.
Qed.

Lemma touches_ret {A} ws (a : A) : touches ws (ret a : HM F A).
Proof. intros h. apply modifies_refl. Qed.

Lemma touches_raise {A} ws (e : exn) : touches ws (raise e : HM F A).
Proof. intros h. apply modifies_refl. Qed.

Lemma touches_bind {A B} ws (c : HM F A) (k : A -> HM F B) :
  touches ws c -> (forall a, touches ws (k a)) -> touches ws (bind c k).
Proof.
  intros Hc Hk h. unfold bind. specialize (Hc h).
  destruct (c h) as [[a|e] h1]; simpl in *.
  - eapply modifies_trans; [exact Hc | apply Hk].
  - exact Hc.
Qed.

Lemma touches_read ws r : touches ws (read r).
Proof.
  intros h. unfold read. destruct (h !! r); apply modifies_refl.
Qed.

Lemma touches_write ws r x : In r ws -> touches ws (write r x).
Proof. intros Hin h. apply modifies_insert. exact Hin. Qed.

Lemma touches_alloc ws x : touches ws (alloc x).
Proof. intros h. apply modifies_app. Qed.

Lemma touches_if {A} ws (b : bool) (c1 c2 : HM F A) :
  touches ws c1 -> touches ws c2 -> touches ws (if b then c1 else c2).
Proof. destruct b; auto. Qed.

Create HintDb frame discriminated.
Hint Resolve touches_ret touches_raise touches_read touches_write
  touches_alloc touches_if : frame.

Hint Resolve in_eq in_cons : frame.

Ltac frame :=
  repeat first
    [ progress intros
    | solve [auto with frame]
    | discriminate
    | apply touches_bind
    | apply touches_if ].

Lemma touches_np_zeros ws k : touches ws (np_zeros k).
Proof. apply touches_alloc. Qed.

Lemma touches_np_copyto ws dst src :
  In dst ws -> touches ws (np_copyto dst src).
Proof. intros Hin. unfold np_copyto. frame. Qed.

Lemma touches_np_dot_out ws M v out :
  In out ws -> touches ws (np_dot_out M v out).
Proof. intros Hin. unfold np_dot_out. frame. Qed.

Lemma touches_matmul ws M v : touches ws (matmul M v).
Proof. unfold matmul. frame. Qed.

Lemma touches_solve_triangular ws R b t cf ov :
  (ov = true -> In b ws) -> touches ws (solve_triangular R b t cf ov).
Proof.
  intros Hin. unfold solve_triangular.
  destruct ov; [specialize (Hin eq_refl)|]; frame.
Qed.

Lemma touches_matvec ws (op : LinearOperator F) v :
  touches ws (matvec_impl op v) -> touches ws (matvec op v).
Proof. intros Himpl. unfold matvec. frame. Qed.

Lemma touches_rmatvec ws (op : LinearOperator F) v :
  touches ws (rmatvec_impl op v) -> touches ws (rmatvec op v).
Proof. intros Himpl. unfold rmatvec. frame. Qed.

Hint Resolve touches_np_zeros touches_np_copyto touches_np_dot_out
  touches_matmul : frame.

Ltac frame_closure :=
  repeat first
    [ progress intros
    | solve [auto with frame]
    | discriminate
    | apply touches_solve_triangular
    | apply touches_bind ].

(** The closures write to their scratch buffers only. *)
Lemma touches_a_times_inv_r_mv (A R : ndarray2 F) work vec :
  touches [work] (a_times_inv_r_mv A R work vec).
Proof. unfold a_times_inv_r_mv. frame_closure. Qed.

Lemma touches_a_times_inv_r_rmv (A R : ndarray2 F) work vec :
  touches [work] (a_times_inv_r_rmv A R work vec).
Proof. unfold a_times_inv_r_rmv. frame_closure. Qed.

Lemma touches_lr_precond_gram_mv (A R : ndarray2 F) work1 work2 vec :
  touches [work1; work2] (lr_precond_gram_mv A R work1 work2 vec).
Proof. unfold lr_precond_gram_mv. frame_closure. Qed.

Lemma touches_pinv_precond_lsqr_mv (A N : ndarray2 F) work vec :
  touches [work] (pinv_precond_lsqr_mv A N work vec).
Proof. unfold pinv_precond_lsqr_mv. frame_closure. Qed.

Lemma touches_pinv_precond_lsqr_rmv (A N : ndarray2 F) work vec :
  touches [work] (pinv_precond_lsqr_rmv A N work vec).
Proof. unfold pinv_precond_lsqr_rmv. frame_closure. Qed.

End Frames.

Section Exec.
Context {F : Type} `{Scalar F}.

Implicit Types (h : heap F) (r : ref) (x : list F).

Lemma read_ok h r x : h !! r = Some x -> read r h = (Ok x, h).
Proof. intros Hr. unfold read. rewrite Hr. reflexivity. Qed.

Lemma read_inv h r x h' :
  read r h = (Ok x, h') -> h !! r = Some x /\ h' = h.
Proof.
  unfold read. destruct (h !! r); intros Hr; inversion Hr; auto.
Qed.

Lemma np_copyto_ok h dst src d s :
  h !! dst = Some d -> h !! src = Some s -> length s = length d ->
  np_copyto dst src h = (Ok tt, <[dst := s]> h).
Proof.
  intros Hd Hs Hlen. unfold np_copyto.
  rewrite (bind_ok _ _ _ _ _ (read_ok _ _ _ Hd)).
  rewrite (bind_ok _ _ _ _ _ (read_ok _ _ _ Hs)).
  rewrite Hlen, Nat.eqb_refl. reflexivity.
Qed.

Lemma np_dot_out_ok h (M : ndarray2 F) v out x o :
  h !! v = Some x -> h !! out = Some o ->
  length x = ncols M -> length o = nrows M ->
  np_dot_out M v out h = (Ok tt, <[out := matvec_val M x]> h).
Proof.
  intros Hv Ho Hx Hlen. unfold np_dot_out.
  rewrite (bind_ok _ _ _ _ _ (read_ok _ _ _ Hv)).
  rewrite (bind_ok _ _ _ _ _ (read_ok _ _ _ Ho)).
  rewrite Hx, Hlen, !Nat.eqb_refl. reflexivity.
Qed.

Lemma matmul_ok h (M : ndarray2 F) v x :
  h !! v = Some x -> length x = ncols M ->
  matmul M v h = (Ok (length h), h ++ [matvec_val M x]).
Proof.
  intros Hv Hx. unfold matmul.
  rewrite (bind_ok _ _ _ _ _ (read_ok _ _ _ Hv)).
  rewrite Hx, Nat.eqb_refl. reflexivity.
Qed.

Lemma matmul_inv h (M : ndarray2 F) v r h' :
  matmul M v h = (Ok r, h') ->
  exists x, h !! v = Some x /\ length x = ncols M /\
            r = length h /\ h' = h ++ [matvec_val M x].
Proof.
  unfold matmul. intros Hrun.
  apply bind_inv_ok in Hrun as (x & h1 & Hread & Hrun).
  apply read_inv in Hread as [Hv ->].
  destruct (ncols M =? length x) eqn:Hlen; [|discriminate].
  apply Nat.eqb_eq in Hlen. inversion Hrun; subst.
  exists x. auto.
Qed.

Lemma solve_triangular_ok h (R : ndarray2 F) b t cf ov x :
  h !! b = Some x -> accepted R x cf ->
  solve_triangular R b t cf ov h
  = if ov then (Ok b, <[b := trsv R t x]> h)
    else (Ok (length h), h ++ [trsv R t x]).
Proof.
  intros Hb (Hfin & Hsq & Hlen & Hdiag). unfold solve_triangular.
  rewrite (bind_ok _ _ _ _ _ (read_ok _ _ _ Hb)).
  replace (cf && negb (all_finite_mat R && all_finite_vec x)) with false.
  2:{ destruct cf; [rewrite Hfin by reflexivity|]; reflexivity. }
  rewrite <- Hsq, <- Hlen, Nat.eqb_refl, Hdiag. simpl.
  destruct ov; reflexivity.
Qed.

Lemma solve_triangular_inv h (R : ndarray2 F) b t cf ov r h' :
  solve_triangular R b t cf ov h = (Ok r, h') ->
  exists x, h !! b = Some x /\ accepted R x cf /\
    if ov then r = b /\ h' = <[b := trsv R t x]> h
    else r = length h /\ h' = h ++ [trsv R t x].
Proof.
  unfold solve_triangular. intros Hrun.
  apply bind_inv_ok in Hrun as (x & h1 & Hread & Hrun).
  apply read_inv in Hread as [Hb ->].
  destruct (cf && negb (all_finite_mat R && all_finite_vec x)) eqn:Hfin;
    [discriminate|].
  destruct (nrows R =? ncols R) eqn:Hsq; [|discriminate].
  destruct (nrows R =? length x) eqn:Hlen; [|discriminate].
  destruct (zero_on_diagonal R) eqn:Hdiag; [discriminate|].
  simpl in Hrun. apply Nat.eqb_eq in Hsq, Hlen.
  exists x. split; [exact Hb|]. split.
  - repeat split; try assumption. intros ->. simpl in Hfin.
    apply negb_false_iff in Hfin. exact Hfin.
  - destruct ov; inversion Hrun; subst; auto.
Qed.

(** A zero on the diagonal is always refused, and nothing is written. *)
Lemma solve_triangular_singular h (R : ndarray2 F) b t cf ov :
  zero_on_diagonal R = true ->
  exists e, solve_triangular R b t cf ov h = (Raise e, h).
Proof.
  intros Hdiag. unfold solve_triangular, bind, read.
  destruct (h !! b) as [x|]; [|eauto].
  destruct (cf && negb (all_finite_mat R && all_finite_vec x)); [eauto|].
  destruct (negb (nrows R =? ncols R)); [eauto|].
  destruct (negb (nrows R =? length x)); [eauto|].
  rewrite Hdiag. eauto.
Qed.

Lemma solve_triangular_singular_LinAlgError h (R : ndarray2 F) b t cf ov x :
  zero_on_diagonal R = true ->
  h !! b = Some x ->
  (cf = true -> all_finite_mat R && all_finite_vec x = true) ->
  nrows R = ncols R -> nrows R = length x ->
  solve_triangular R b t cf ov h = (Raise LinAlgError, h).
Proof.
  intros Hdiag Hb Hfin Hsq Hlen. unfold solve_triangular.
  rewrite (bind_ok _ _ _ _ _ (read_ok _ _ _ Hb)).
  replace (cf && negb (all_finite_mat R && all_finite_vec x)) with false.
  2:{ destruct cf; [rewrite Hfin by reflexivity|]; reflexivity. }
  rewrite <- Hsq, <- Hlen, Nat.eqb_refl, Hdiag. reflexivity.
Qed.


Lemma zero_on_diagonal_false (R : ndarray2 F) :
  nonsingular_diag R -> zero_on_diagonal R = false.
Proof.
  intros Hdiag. unfold zero_on_diagonal.
  destruct (existsb _ _) eqn:Hex; [|reflexivity].
  apply existsb_exists in Hex as (i & Hin & Hz).
  apply in_seq in Hin. rewrite Hdiag in Hz by lia. discriminate.
Qed.

Lemma zero_on_diagonal_false_inv (R : ndarray2 F) :
  zero_on_diagonal R = false -> nonsingular_diag R.
Proof.
  intros Hex i Hi. unfold zero_on_diagonal in Hex.
  destruct (is_zero (entry R i i)) eqn:Hz; [|reflexivity].
  assert (existsb (fun i => is_zero (entry R i i)) (seq 0 (nrows R)) = true).
  { apply existsb_exists. exists i. split; [apply in_seq; lia | exact Hz]. }
  congruence.
Qed.

Lemma zero_on_diagonal_true (R : ndarray2 F) (i : nat) :
  i < nrows R -> is_zero (entry R i i) = true -> zero_on_diagonal R = true.
Proof.
  intros Hi Hz. apply existsb_exists. exists i.
  split; [apply in_seq; lia | exact Hz].
Qed.

End Exec.

(** ** The operators *)

Section Operators.
Context {F : Type} `{Scalar F}.

Implicit Types (h : heap F) (r : ref) (x : list F) (A R N : ndarray2 F).

Lemma scratch_insert h work k buf :
  scratch h work k -> length buf = k -> scratch (<[work := buf]> h) work k.
Proof.
  intros (old & Hw & _) Hlen. exists buf. split; [|exact Hlen].
  apply list_lookup_insert_eq. apply lookup_lt_Some in Hw. exact Hw.
Qed.

Lemma scratch_insert_ne h work k r buf :
  scratch h work k -> r <> work -> scratch (<[r := buf]> h) work k.
Proof.
  intros (old & Hw & Hlen) Hne. exists old. split; [|exact Hlen].
  rewrite list_lookup_insert_ne by exact Hne. exact Hw.
Qed.

Lemma scratch_app h work k x : scratch h work k -> scratch (h ++ [x]) work k.
Proof.
  intros (old & Hw & Hlen). exists old. split; [|exact Hlen].
  rewrite lookup_app_l by (apply lookup_lt_Some in Hw; exact Hw). exact Hw.
Qed.

Lemma scratch_lt h work k : scratch h work k -> work < length h.
Proof. intros (old & Hw & _). apply lookup_lt_Some in Hw. exact Hw. Qed.

Lemma lookup_snoc h x : (h ++ [x]) !! length h = Some x.
Proof. apply list_lookup_middle. reflexivity. Qed.

(** The forward closure of [a_times_inv_r] on a well-shaped input. *)
Lemma a_times_inv_r_mv_ok A R work vec h x :
  scratch h work (ncols A) ->
  h !! vec = Some x -> length x = ncols A ->
  accepted R x false ->
  a_times_inv_r_mv A R work vec h
  = (Ok (length h),
     <[work := trsv R NoTrans x]> h ++ [matvec_val A (trsv R NoTrans x)]).
Proof.
  intros Hs Hvec Hx Hacc. pose proof (scratch_lt _ _ _ Hs) as Hlt.
  destruct Hs as (buf & Hw & Hbuf).
  unfold a_times_inv_r_mv.
  rewrite (bind_ok _ _ _ _ _ (np_copyto_ok _ _ _ _ _ Hw Hvec
                                (eq_trans Hx (eq_sym Hbuf)))).
  assert (Hw1 : <[work := x]> h !! work = Some x)
    by (apply list_lookup_insert_eq; exact Hlt).
  rewrite (bind_ok _ _ _ _ _ (solve_triangular_ok _ R work NoTrans false true
                                x Hw1 Hacc)).
  rewrite list_insert_insert_eq.
  assert (Hw2 : <[work := trsv R NoTrans x]> h !! work
                = Some (trsv R NoTrans x))
    by (apply list_lookup_insert_eq; exact Hlt).
  rewrite (matmul_ok _ A work _ Hw2)
    by (rewrite length_trsv; exact Hx).
  rewrite length_insert. reflexivity.
Qed.

(** The adjoint closure of [a_times_inv_r] on a well-shaped input. *)
Lemma a_times_inv_r_rmv_ok A R work vec h x :
  scratch h work (ncols A) ->
  h !! vec = Some x -> length x = nrows A ->
  accepted R (matvec_val (transpose A) x) false ->
  a_times_inv_r_rmv A R work vec h
  = (Ok (length h),
     <[work := matvec_val (transpose A) x]> h
       ++ [trsv R Trans (matvec_val (transpose A) x)]).
Proof.
  intros Hs Hvec Hx Hacc. pose proof (scratch_lt _ _ _ Hs) as Hlt.
  destruct Hs as (buf & Hw & Hbuf).
  unfold a_times_inv_r_rmv.
  rewrite (bind_ok _ _ _ _ _ (np_dot_out_ok _ (transpose A) vec work x buf
                                Hvec Hw Hx Hbuf)).
  assert (Hw1 : <[work := matvec_val (transpose A) x]> h !! work
                = Some (matvec_val (transpose A) x))
    by (apply list_lookup_insert_eq; exact Hlt).
  rewrite (solve_triangular_ok _ R work Trans false false _ Hw1 Hacc).
  rewrite length_insert. reflexivity.
Qed.

(** The closure of [lr_precond_gram] on a well-shaped input. *)
Lemma lr_precond_gram_mv_ok A R work1 work2 vec h x :
  scratch h work1 (ncols A) -> scratch h work2 (nrows A) ->
  work1 <> work2 ->
  h !! vec = Some x -> length x = ncols A ->
  nrows R = ncols R -> nrows R = ncols A -> zero_on_diagonal R = false ->
  exists h',
    lr_precond_gram_mv A R work1 work2 vec h = (Ok (length h), h') /\
    h' !! length h = Some (gram_val A R x) /\
    scratch h' work1 (ncols A) /\ scratch h' work2 (nrows A).
Proof.
  intros Hs1 Hs2 Hne Hvec Hx Hsq Hm Hdiag.
  pose proof (scratch_lt _ _ _ Hs1) as Hlt1.
  pose proof (scratch_lt _ _ _ Hs2) as Hlt2.
  destruct Hs1 as (buf1 & Hw1 & Hbuf1). destruct Hs2 as (buf2 & Hw2 & Hbuf2).
  set (w := trsv R NoTrans x).
  set (z := matvec_val A w).
  set (g := matvec_val (transpose A) z).
  assert (Hacc : forall u, length u = ncols A -> accepted R u false).
  { intros u Hu. repeat split; try assumption; [discriminate | congruence]. }
  unfold lr_precond_gram_mv.
  rewrite (bind_ok _ _ _ _ _ (np_copyto_ok _ _ _ _ _ Hw1 Hvec
                                (eq_trans Hx (eq_sym Hbuf1)))).
  assert (Ha : <[work1 := x]> h !! work1 = Some x)
    by (apply list_lookup_insert_eq; exact Hlt1).
  rewrite (bind_ok _ _ _ _ _ (solve_triangular_ok _ R work1 NoTrans false true
                                x Ha (Hacc x Hx))).
  rewrite list_insert_insert_eq. fold w.
  assert (Hb1 : <[work1 := w]> h !! work1 = Some w)
    by (apply list_lookup_insert_eq; exact Hlt1).
  assert (Hb2 : <[work1 := w]> h !! work2 = Some buf2)
    by (rewrite list_lookup_insert_ne by exact Hne; exact Hw2).
  assert (Hwlen : length w = ncols A)
    by (unfold w; rewrite length_trsv; exact Hx).
  rewrite (bind_ok _ _ _ _ _ (np_dot_out_ok _ A work1 work2 w buf2
                                Hb1 Hb2 Hwlen Hbuf2)).
  fold z. set (h3 := <[work2 := z]> (<[work1 := w]> h)).
  assert (Hc1 : h3 !! work1 = Some w)
    by (unfold h3; rewrite list_lookup_insert_ne by congruence; exact Hb1).
  assert (Hc2 : h3 !! work2 = Some z)
    by (unfold h3; apply list_lookup_insert_eq; rewrite length_insert;
        exact Hlt2).
  assert (Hzlen : length z = nrows A)
    by (unfold z; apply length_matvec_val).
  rewrite (bind_ok _ _ _ _ _ (np_dot_out_ok _ (transpose A) work2 work1 z w
                                Hc2 Hc1 Hzlen Hwlen)).
  fold g. set (h4 := <[work1 := g]> h3).
  assert (Hlen4 : length h4 = length h)
    by (unfold h4, h3; rewrite !length_insert; reflexivity).
  assert (Hd1 : h4 !! work1 = Some g).
  { unfold h4. apply list_lookup_insert_eq. unfold h3.
    rewrite !length_insert. exact Hlt1. }
  assert (Hglen : length g = ncols A)
    by (unfold g; apply length_matvec_val).
  rewrite (bind_ok _ _ _ _ _ (solve_triangular_ok _ R work1 Trans false false
                                g Hd1 (Hacc g Hglen))).
  unfold ret. rewrite Hlen4. eexists. split; [reflexivity|].
  split; [|split].
  - rewrite <- Hlen4. apply lookup_snoc.
  - apply scratch_app. exists g. auto.
  - apply scratch_app. exists z. split; [|exact Hzlen].
    unfold h4. rewrite list_lookup_insert_ne by exact Hne. exact Hc2.
Qed.

(** [op.matvec] and [op.rmatvec] around a successful user function. *)
Lemma matvec_ok (op : LinearOperator F) v h xv r h' yv :
  h !! v = Some xv -> length xv = snd (op_shape op) ->
  matvec_impl op v h = (Ok r, h') ->
  h' !! r = Some yv -> length yv = fst (op_shape op) ->
  matvec op v h = (Ok r, h').
Proof.
  intros Hv Hxv Himpl Hr Hyv. unfold matvec.
  rewrite (bind_ok _ _ _ _ _ (read_ok _ _ _ Hv)).
  rewrite Hxv, Nat.eqb_refl.
  rewrite (bind_ok _ _ _ _ _ Himpl).
  rewrite (bind_ok _ _ _ _ _ (read_ok _ _ _ Hr)).
  rewrite Hyv, Nat.eqb_refl. reflexivity.
Qed.

Lemma rmatvec_ok (op : LinearOperator F) v h xv r h' yv :
  h !! v = Some xv -> length xv = fst (op_shape op) ->
  rmatvec_impl op v h = (Ok r, h') ->
  h' !! r = Some yv -> length yv = snd (op_shape op) ->
  rmatvec op v h = (Ok r, h').
Proof.
  intros Hv Hxv Himpl Hr Hyv. unfold rmatvec.
  rewrite (bind_ok _ _ _ _ _ (read_ok _ _ _ Hv)).
  rewrite Hxv, Nat.eqb_refl.
  rewrite (bind_ok _ _ _ _ _ Himpl).
  rewrite (bind_ok _ _ _ _ _ (read_ok _ _ _ Hr)).
  rewrite Hyv, Nat.eqb_refl. reflexivity.
Qed.

(** A raising user function makes [op.matvec] raise. *)
Lemma matvec_raise (op : LinearOperator F) v h xv e h' :
  h !! v = Some xv -> length xv = snd (op_shape op) ->
  matvec_impl op v h = (Raise e, h') ->
  matvec op v h = (Raise e, h').
Proof.
  intros Hv Hxv Himpl. unfold matvec.
  rewrite (bind_ok _ _ _ _ _ (read_ok _ _ _ Hv)).
  rewrite Hxv, Nat.eqb_refl.
  rewrite (bind_raise _ _ _ _ _ Himpl). reflexivity.
Qed.

(** Building an operator whose [matvec] accepts the zero vector. *)
Lemma LinearOperator_new_ok (shp : nat * nat) (mv rmv : ref -> HM F ref)
    h r h' yv :
  mv (length h) (h ++ [repeat zero (snd shp)]) = (Ok r, h') ->
  h' !! r = Some yv -> length yv = fst shp ->
  LinearOperator_new shp mv rmv h
  = (Ok {| op_shape := shp; matvec_impl := mv; rmatvec_impl := rmv |}, h').
Proof.
  intros Hmv Hr Hyv. unfold LinearOperator_new, np_zeros.
  assert (Halloc : alloc (repeat zero (snd shp)) h
                   = (Ok (length h), h ++ [repeat zero (snd shp)]))
    by reflexivity.
  rewrite (bind_ok _ _ _ _ _ Halloc).
  erewrite bind_ok; [reflexivity|].
  eapply matvec_ok; simpl; eauto using lookup_snoc.
  apply repeat_length.
Qed.

(** If the probe raises, so does the construction. *)
Lemma LinearOperator_new_raise (shp : nat * nat) (mv rmv : ref -> HM F ref)
    h e h' :
  mv (length h) (h ++ [repeat zero (snd shp)]) = (Raise e, h') ->
  LinearOperator_new shp mv rmv h = (Raise e, h').
Proof.
  intros Hmv. unfold LinearOperator_new, np_zeros.
  assert (Halloc : alloc (repeat zero (snd shp)) h
                   = (Ok (length h), h ++ [repeat zero (snd shp)]))
    by reflexivity.
  rewrite (bind_ok _ _ _ _ _ Halloc).
  erewrite bind_raise; [reflexivity|].
  eapply matvec_raise; simpl; eauto using lookup_snoc.
  apply repeat_length.
Qed.

(** An operator that was built is the record of its arguments. *)
Lemma LinearOperator_new_inv (shp : nat * nat) (mv rmv : ref -> HM F ref)
    h op h' :
  LinearOperator_new shp mv rmv h = (Ok op, h') ->
  op = {| op_shape := shp; matvec_impl := mv; rmatvec_impl := rmv |}.
Proof.
  unfold LinearOperator_new. intros Hrun.
  apply bind_inv_ok in Hrun as (v & h1 & _ & Hrun).
  apply bind_inv_ok in Hrun as (y & h2 & _ & Hrun).
  inversion Hrun. reflexivity.
Qed.

Lemma touches_LinearOperator_new ws (shp : nat * nat)
    (mv rmv : ref -> HM F ref) :
  (forall v, touches ws (mv v)) ->
  touches ws (LinearOperator_new shp mv rmv).
Proof.
  intros Hmv. unfold LinearOperator_new.
  apply touches_bind; [apply touches_np_zeros|]. intros v.
  apply touches_bind; [|intros; apply touches_ret].
  apply touches_matvec. simpl. apply Hmv.
Qed.

End Operators.

(** ** Building the operators *)

Section Construction.
Context {F : Type} `{Scalar F}.

Implicit Types (h : heap F) (r : ref) (x : list F) (A R N : ndarray2 F).

Lemma a_times_inv_r_inv A R h op h' :
  a_times_inv_r A R h = (Ok op, h') ->
  op = a_times_inv_r_op A R (length h).
Proof.
  unfold a_times_inv_r, np_zeros, alloc. intros Hrun.
  apply bind_inv_ok in Hrun as (work & h1 & Hw & Hrun).
  inversion Hw; subst work h1; clear Hw.
  apply bind_inv_ok in Hrun as (op' & h2 & Hnew & Hrun).
  apply LinearOperator_new_inv in Hnew. inversion Hrun; subst.
  reflexivity.
Qed.

Lemma lr_precond_gram_inv A R h op h' :
  lr_precond_gram A R h = (Ok op, h') ->
  op = lr_precond_gram_op A R (length h) (S (length h)).
Proof.
  unfold lr_precond_gram, np_zeros, alloc. intros Hrun.
  apply bind_inv_ok in Hrun as (work1 & h1 & Hw & Hrun).
  inversion Hw; subst work1 h1; clear Hw.
  apply bind_inv_ok in Hrun as (work2 & h1 & Hw & Hrun).
  inversion Hw; subst work2 h1; clear Hw.
  apply bind_inv_ok in Hrun as (op' & h2 & Hnew & Hrun).
  apply LinearOperator_new_inv in Hnew. inversion Hrun; subst.
  rewrite length_app, Nat.add_comm. reflexivity.
Qed.

(** [a_times_inv_r] succeeds on matching shapes and a diagonal without
    zeros, and leaves its scratch buffer allocated. *)
Lemma a_times_inv_r_ok A R h :
  nrows R = ncols R -> nrows R = ncols A -> zero_on_diagonal R = false ->
  exists h',
    a_times_inv_r A R h = (Ok (a_times_inv_r_op A R (length h)), h') /\
    scratch h' (length h) (ncols A).
Proof.
  intros Hsq Hm Hdiag. unfold a_times_inv_r, np_zeros.
  set (z := repeat zero (ncols A)).
  assert (Hz : length z = ncols A) by apply repeat_length.
  assert (Halloc : alloc z h = (Ok (length h), h ++ [z])) by reflexivity.
  rewrite (bind_ok _ _ _ _ _ Halloc).
  assert (Hs : scratch ((h ++ [z]) ++ [repeat zero (snd (shape A))])
                       (length h) (ncols A)).
  { apply scratch_app. exists z. split; [apply lookup_snoc | exact Hz]. }
  assert (Hmv := a_times_inv_r_mv_ok A R (length h) (length (h ++ [z]))
                   _ z Hs (lookup_snoc _ _) Hz).
  simpl snd in *. fold z in Hmv, Hs.
  assert (Hacc : accepted R z false)
    by (repeat split; try assumption; [discriminate | congruence]).
  specialize (Hmv Hacc).
  assert (Hres : (<[length h := trsv R NoTrans z]> ((h ++ [z]) ++ [z])
                    ++ [matvec_val A (trsv R NoTrans z)])
                   !! length ((h ++ [z]) ++ [z])
                 = Some (matvec_val A (trsv R NoTrans z))).
  { apply list_lookup_middle. rewrite length_insert. reflexivity. }
  pose proof (LinearOperator_new_ok (shape A) _
                (a_times_inv_r_rmv A R (length h)) (h ++ [z]) _ _ _
                Hmv Hres (length_matvec_val _ _)) as Hnew.
  rewrite (bind_ok _ _ _ _ _ Hnew).
  eexists. split; [reflexivity|].
  apply scratch_app, scratch_insert; [exact Hs|].
  rewrite length_trsv. exact Hz.
Qed.

(** [lr_precond_gram] succeeds under the same conditions. *)
Lemma lr_precond_gram_ok A R h :
  nrows R = ncols R -> nrows R = ncols A -> zero_on_diagonal R = false ->
  exists h',
    lr_precond_gram A R h
    = (Ok (lr_precond_gram_op A R (length h) (S (length h))), h') /\
    scratch h' (length h) (ncols A) /\
    scratch h' (S (length h)) (nrows A).
Proof.
  intros Hsq Hm Hdiag. unfold lr_precond_gram, np_zeros.
  set (z1 := repeat zero (ncols A)). set (z2 := repeat zero (nrows A)).
  assert (Hz1 : length z1 = ncols A) by apply repeat_length.
  assert (Hz2 : length z2 = nrows A) by apply repeat_length.
  assert (Ha1 : alloc z1 h = (Ok (length h), h ++ [z1])) by reflexivity.
  rewrite (bind_ok _ _ _ _ _ Ha1).
  assert (Ha2 : alloc z2 (h ++ [z1])
                = (Ok (length (h ++ [z1])), (h ++ [z1]) ++ [z2]))
    by reflexivity.
  rewrite (bind_ok _ _ _ _ _ Ha2).
  assert (Hlen1 : length (h ++ [z1]) = S (length h))
    by (rewrite length_app; simpl; lia).
  set (h2 := (h ++ [z1]) ++ [z2]).
  assert (Hs1 : scratch (h2 ++ [z1]) (length h) (ncols A)).
  { apply scratch_app, scratch_app. exists z1.
    split; [apply lookup_snoc | exact Hz1]. }
  assert (Hs2 : scratch (h2 ++ [z1]) (length (h ++ [z1])) (nrows A)).
  { apply scratch_app. exists z2. split; [apply lookup_snoc | exact Hz2]. }
  destruct (lr_precond_gram_mv_ok A R (length h) (length (h ++ [z1]))
              (length h2) (h2 ++ [z1]) z1 Hs1 Hs2 ltac:(lia)
              (lookup_snoc _ _) Hz1 Hsq Hm Hdiag)
    as (h' & Hmv & Hres & Hs1' & Hs2').
  rewrite (bind_ok _ _ _ _ _
             (LinearOperator_new_ok (ncols A, ncols A) _ _ h2 _ _
                (gram_val A R z1) Hmv Hres ltac:(
                  unfold gram_val; rewrite length_trsv;
                  apply length_matvec_val))).
  rewrite Hlen1 in *. eexists. split; [reflexivity|]. split; assumption.
Qed.

(** Whatever happens, building an operator changes no array that
    existed before. *)
Lemma a_times_inv_r_frame A R h :
  modifies [] h (snd (a_times_inv_r A R h)).
Proof.
  unfold a_times_inv_r, np_zeros, bind, alloc.
  pose proof (touches_LinearOperator_new [length h] (shape A)
                (a_times_inv_r_mv A R (length h))
                (a_times_inv_r_rmv A R (length h))
                (touches_a_times_inv_r_mv A R (length h))
                (h ++ [repeat zero (ncols A)])) as Hnew.
  destruct (LinearOperator_new _ _ _ _) as [[op|e] h']; simpl in *.
  all: eapply modifies_fresh;
    [apply (modifies_app [] h) | exact Hnew |];
    intros w [<-|[]]; right; lia.
Qed.

Lemma lr_precond_gram_frame A R h :
  modifies [] h (snd (lr_precond_gram A R h)).
Proof.
  unfold lr_precond_gram, np_zeros, bind, alloc.
  set (h2 := (h ++ [repeat zero (ncols A)]) ++ [repeat zero (nrows A)]).
  pose proof (touches_LinearOperator_new
                [length h; length (h ++ [repeat zero (ncols A)])]
                (ncols A, ncols A)
                (lr_precond_gram_mv A R (length h)
                   (length (h ++ [repeat zero (ncols A)])))
                (lr_precond_gram_mv A R (length h)
                   (length (h ++ [repeat zero (ncols A)])))
                (touches_lr_precond_gram_mv A R (length h) _) h2) as Hnew.
  assert (H0 : modifies [] h h2).
  { eapply modifies_trans; apply modifies_app. }
  destruct (LinearOperator_new _ _ _ _) as [[op|e] h']; simpl in *.
  all: eapply modifies_fresh; [exact H0 | exact Hnew |];
    intros w [<-|[<-|[]]]; right; rewrite ?length_app; lia.
Qed.

End Construction.

(** ** What the operators compute *)

Section OperatorCorrectness.
Context {F : Type} `{ExactScalar F}.

Implicit Types (h : heap F) (r : ref) (x : list F) (A R N : ndarray2 F).

Lemma accepted_unchecked R x :
  nrows R = ncols R -> nrows R = length x -> nonsingular_diag R ->
  accepted R x false.
Proof.
  intros Hsq Hlen Hdiag. repeat split; try assumption; [discriminate|].
  apply zero_on_diagonal_false. exact Hdiag.
Qed.

(** C1.  For [A] of shape (n, m) and a nonsingular upper-triangular [R]
    of shape (m, m), [a_times_inv_r A R] returns an operator of shape
    (n, m).  Its forward application to a vector [x] of length m returns
    a new array holding [A w], where [w] is the triangular solve of
    [R w = x]; its adjoint application to a vector [x] of length n
    returns a new array [y] that is the transposed triangular solve of
    [R^T y = A^T x].  The scratch buffer is the array allocated by the
    call, at reference [length h]. *)
Theorem a_times_inv_r_correct A R h :
  nrows R = ncols A -> ncols R = ncols A ->
  upper_triangular R -> nonsingular_diag R ->
  exists op h',
    a_times_inv_r A R h = (Ok op, h') /\
    op_shape op = (nrows A, ncols A) /\
    scratch h' (length h) (ncols A) /\
    forall h1, scratch h1 (length h) (ncols A) ->
      (forall v x, h1 !! v = Some x -> length x = ncols A ->
         exists w h2,
           matvec op v h1 = (Ok (length h1), h2) /\
           w = trsv R NoTrans x /\
           matvec_val R w = x /\
           h2 !! length h1 = Some (matvec_val A w) /\
           scratch h2 (length h) (ncols A)) /\
      (forall v x, h1 !! v = Some x -> length x = nrows A ->
         exists y h2,
           rmatvec op v h1 = (Ok (length h1), h2) /\
           y = trsv R Trans (matvec_val (transpose A) x) /\
           matvec_val (transpose R) y = matvec_val (transpose A) x /\
           h2 !! length h1 = Some y /\
           scratch h2 (length h) (ncols A)).
Proof.
  intros Hn Hm Hup Hdiag.
  assert (Hsq : nrows R = ncols R) by congruence.
  destruct (a_times_inv_r_ok A R h Hsq Hn (zero_on_diagonal_false R Hdiag))
    as (h' & Hrun & Hs).
  exists (a_times_inv_r_op A R (length h)), h'.
  split; [exact Hrun|]. split; [reflexivity|]. split; [exact Hs|].
  intros h1 Hs1. split.
  - intros v x Hv Hx.
    assert (Hacc : accepted R x false)
      by (apply accepted_unchecked; [congruence | congruence | assumption]).
    pose proof (a_times_inv_r_mv_ok A R (length h) v h1 x Hs1 Hv Hx Hacc)
      as Hmv.
    set (w := trsv R NoTrans x) in *.
    assert (Hres : (<[length h := w]> h1 ++ [matvec_val A w]) !! length h1
                   = Some (matvec_val A w))
      by (apply list_lookup_middle; rewrite length_insert; reflexivity).
    exists w, (<[length h := w]> h1 ++ [matvec_val A w]).
    split; [|split; [reflexivity|split; [|split]]].
    + eapply matvec_ok; simpl; eauto using length_matvec_val.
    + apply back_subst_solves; first [assumption | congruence].
    + exact Hres.
    + apply scratch_app, scratch_insert; [exact Hs1|].
      unfold w. rewrite length_trsv. exact Hx.
  - intros v x Hv Hx.
    set (g := matvec_val (transpose A) x).
    assert (Hg : length g = ncols A) by apply length_matvec_val.
    assert (Hacc : accepted R g false)
      by (apply accepted_unchecked; [congruence | congruence | assumption]).
    pose proof (a_times_inv_r_rmv_ok A R (length h) v h1 x Hs1 Hv Hx Hacc)
      as Hrmv.
    fold g in Hrmv. set (y := trsv R Trans g) in *.
    assert (Hres : (<[length h := g]> h1 ++ [y]) !! length h1 = Some y)
      by (apply list_lookup_middle; rewrite length_insert; reflexivity).
    exists y, (<[length h := g]> h1 ++ [y]).
    split; [|split; [reflexivity|split; [|split]]].
    + eapply rmatvec_ok; simpl; eauto.
      unfold y. rewrite length_trsv. exact Hg.
    + apply forward_subst_solves; first [assumption | congruence].
    + exact Hres.
    + apply scratch_app, scratch_insert; [exact Hs1 | exact Hg].
Qed.

(** The Gram operator is symmetric for the inner product. *)
Lemma gram_val_symmetric A R (u w : list F) :
  nrows R = ncols A -> ncols R = ncols A ->
  upper_triangular R -> nonsingular_diag R ->
  length u = ncols A -> length w = ncols A ->
  dot (gram_val A R u) w = dot u (gram_val A R w).
Proof.
  intros Hn Hm Hup Hdiag Hu Hw.
  assert (Hsq : ncols R = nrows R) by congruence.
  set (a := trsv R NoTrans u). set (c := trsv R NoTrans w).
  assert (Ha : matvec_val R a = u)
    by (apply back_subst_solves; first [assumption | congruence]).
  assert (Hc : matvec_val R c = w)
    by (apply back_subst_solves; first [assumption | congruence]).
  assert (Hla : length a = ncols A)
    by (unfold a; rewrite length_trsv; exact Hu).
  assert (Hlc : length c = ncols A)
    by (unfold c; rewrite length_trsv; exact Hw).
  set (ga := matvec_val (transpose A) (matvec_val A a)).
  set (gc := matvec_val (transpose A) (matvec_val A c)).
  assert (Hga : length ga = ncols A) by apply length_matvec_val.
  assert (Hgc : length gc = ncols A) by apply length_matvec_val.
  assert (Hya : matvec_val (transpose R) (gram_val A R u) = ga)
    by (apply forward_subst_solves; first [assumption | congruence]).
  assert (Hyc : matvec_val (transpose R) (gram_val A R w) = gc)
    by (apply forward_subst_solves; first [assumption | congruence]).
  assert (Hlya : length (gram_val A R u) = ncols A)
    by (unfold gram_val; rewrite length_trsv; exact Hga).
  assert (Hlyc : length (gram_val A R w) = ncols A)
    by (unfold gram_val; rewrite length_trsv; exact Hgc).
  (* <y_u, w> = <y_u, R c> = <R^T y_u, c> = <A^T A a, c> = <A a, A c> *)
  transitivity (dot (matvec_val A a) (matvec_val A c)).
  - rewrite <- Hc at 1.
    rewrite (dot_comm (gram_val A R u))
      by (rewrite length_matvec_val; congruence).
    rewrite dot_adjoint by congruence.
    rewrite Hya. unfold ga.
    rewrite <- dot_adjoint by exact Hlc.
    apply dot_comm. rewrite !length_matvec_val. reflexivity.
  - rewrite <- Ha at 1.
    rewrite (dot_adjoint R a) by congruence.
    rewrite Hyc. unfold gc.
    rewrite <- dot_adjoint by exact Hla. reflexivity.
Qed.

(** C2.  For [A] of shape (n, m) and a nonsingular upper-triangular [R]
    of shape (m, m), [lr_precond_gram A R] returns an operator of shape
    (m, m) whose adjoint application is its forward application.
    Applied to a vector [x] of length m it returns a new array [y]
    obtained by the four steps: solve [R w = x], multiply by [A],
    multiply by [A^T], solve [R^T y = A^T (A w)]; this [y] is
    [gram_val A R x].  The map is symmetric:
    [<gram_val A R u, w> = <u, gram_val A R w>]. *)
Theorem lr_precond_gram_correct A R h :
  nrows R = ncols A -> ncols R = ncols A ->
  upper_triangular R -> nonsingular_diag R ->
  exists op h',
    lr_precond_gram A R h = (Ok op, h') /\
    op_shape op = (ncols A, ncols A) /\
    rmatvec_impl op = matvec_impl op /\
    (forall v h1, rmatvec op v h1 = matvec op v h1) /\
    scratch h' (length h) (ncols A) /\
    scratch h' (S (length h)) (nrows A) /\
    (forall h1,
       scratch h1 (length h) (ncols A) ->
       scratch h1 (S (length h)) (nrows A) ->
       forall v x, h1 !! v = Some x -> length x = ncols A ->
         exists w y h2,
           matvec op v h1 = (Ok (length h1), h2) /\
           w = trsv R NoTrans x /\
           matvec_val R w = x /\
           y = trsv R Trans (matvec_val (transpose A) (matvec_val A w)) /\
           y = gram_val A R x /\
           matvec_val (transpose R) y
           = matvec_val (transpose A) (matvec_val A w) /\
           h2 !! length h1 = Some y /\
           scratch h2 (length h) (ncols A) /\
           scratch h2 (S (length h)) (nrows A)) /\
    (forall u w, length u = ncols A -> length w = ncols A ->
       dot (gram_val A R u) w = dot u (gram_val A R w)).
Proof.
  intros Hn Hm Hup Hdiag.
  assert (Hsq : nrows R = ncols R) by congruence.
  pose proof (zero_on_diagonal_false R Hdiag) as Hz.
  destruct (lr_precond_gram_ok A R h Hsq Hn Hz) as (h' & Hrun & Hs1 & Hs2).
  exists (lr_precond_gram_op A R (length h) (S (length h))), h'.
  split; [exact Hrun|]. split; [reflexivity|]. split; [reflexivity|].
  split; [reflexivity|]. split; [exact Hs1|]. split; [exact Hs2|].
  split.
  - intros h1 Hw1 Hw2 v x Hv Hx.
    destruct (lr_precond_gram_mv_ok A R (length h) (S (length h)) v h1 x
                Hw1 Hw2 ltac:(lia) Hv Hx Hsq Hn Hz)
      as (h2 & Hmv & Hres & Hw1' & Hw2').
    exists (trsv R NoTrans x), (gram_val A R x), h2.
    split; [|split; [reflexivity|split; [|split; [reflexivity|split;
              [reflexivity|split; [|split; [exact Hres|split; assumption]]]]]]].
    + eapply matvec_ok; simpl; eauto.
      unfold gram_val. rewrite length_trsv. apply length_matvec_val.
    + apply back_subst_solves; first [assumption | congruence].
    + apply forward_subst_solves; try first [assumption | congruence].
      rewrite length_matvec_val. simpl. congruence.
  - intros u w Hu Hw. apply gram_val_symmetric; assumption.
Qed.

(** C3.  For [A] of shape (n, m), a nonsingular upper-triangular [R] of
    shape (m, m) and a vector [x] of length m, the forward application
    of the operator of [a_times_inv_r A R] to an array holding [R x]
    returns an array holding [A x] (in exact arithmetic, so with any
    tolerance).  Full column rank of [A] is not needed. *)
Theorem a_times_inv_r_of_R_times_x A R h :
  nrows R = ncols A -> ncols R = ncols A ->
  upper_triangular R -> nonsingular_diag R ->
  exists op h',
    a_times_inv_r A R h = (Ok op, h') /\
    scratch h' (length h) (ncols A) /\
    forall h1 v x,
      scratch h1 (length h) (ncols A) ->
      length x = ncols A ->
      h1 !! v = Some (matvec_val R x) ->
      exists h2,
        matvec op v h1 = (Ok (length h1), h2) /\
        h2 !! length h1 = Some (matvec_val A x).
Proof.
  intros Hn Hm Hup Hdiag.
  assert (Hsq : nrows R = ncols R) by congruence.
  destruct (a_times_inv_r_ok A R h Hsq Hn (zero_on_diagonal_false R Hdiag))
    as (h' & Hrun & Hs).
  exists (a_times_inv_r_op A R (length h)), h'.
  split; [exact Hrun|]. split; [exact Hs|].
  intros h1 v x Hs1 Hx Hv.
  assert (Hlen : length (matvec_val R x) = ncols A)
    by (rewrite length_matvec_val; exact Hn).
  assert (Hacc : accepted R (matvec_val R x) false)
    by (apply accepted_unchecked; [congruence | congruence | assumption]).
  pose proof (a_times_inv_r_mv_ok A R (length h) v h1 _ Hs1 Hv Hlen Hacc)
    as Hmv.
  rewrite (back_subst_matvec R) in Hmv by first [assumption | congruence].
  assert (Hres : (<[length h := x]> h1 ++ [matvec_val A x]) !! length h1
                 = Some (matvec_val A x))
    by (apply list_lookup_middle; rewrite length_insert; reflexivity).
  eexists. split; [|exact Hres].
  eapply matvec_ok; simpl; eauto using length_matvec_val.
Qed.

End OperatorCorrectness.

(** ** Computations that always raise *)

Section FailingFacts.
Context {S : Type}.

Lemma fails_bind_l {A B} (c : SE S A) (k : A -> SE S B) :
  fails c -> fails (bind c k).
Proof.
  intros Hc s. destruct (Hc s) as (e & s' & Hrun).
  exists e, s'. apply bind_raise. exact Hrun.
Qed.

Lemma fails_bind_r {A B} (c : SE S A) (k : A -> SE S B) :
  (forall a, fails (k a)) -> fails (bind c k).
Proof.
  intros Hk s. unfold bind. destruct (c s) as [[a|e] s'].
  - apply Hk.
  - eauto.
Qed.
End FailingFacts.

(** ** The entry points and the record of solver calls *)

Section Calls.
Context {F : Type} `{Scalar F}.

Implicit Types (h : heap F) (A R N : ndarray2 F) (x : option ref).
Implicit Types (log : list (solver_call F)).

Lemma lift_run {X} (c : HM F X) h log :
  lift c (h, log) = (fst (c h), (snd (c h), log)).
Proof. unfold lift. simpl. destruct (c h). reflexivity. Qed.

Lemma lift_ok {X} (c : HM F X) h log a h' :
  c h = (Ok a, h') -> lift c (h, log) = (Ok a, (h', log)).
Proof. intros Hc. rewrite lift_run, Hc. reflexivity. Qed.

Lemma lift_raise {X} (c : HM F X) h log e h' :
  c h = (Raise e, h') -> lift c (h, log) = (Raise e, (h', log)).
Proof. intros Hc. rewrite lift_run, Hc. reflexivity. Qed.

Lemma lift_inv_ok {X} (c : HM F X) (s s' : state F) a :
  lift c s = (Ok a, s') -> c (fst s) = (Ok a, fst s') /\ snd s' = snd s.
Proof.
  destruct s as [h log], s' as [h' log']. rewrite lift_run. simpl.
  destruct (c h) as [o h''] eqn:Hc. simpl.
  intros Hrun. inversion Hrun; subst. auto.
Qed.

Lemma fails_lift {X} (c : HM F X) : fails c -> fails (lift c).
Proof.
  intros Hc [h log]. destruct (Hc h) as (e & h' & Hrun).
  exists e, (h', log). apply lift_raise. exact Hrun.
Qed.

Lemma call_solver_run rt (impl : solver F) op b atol btol it x0 h log :
  call_solver rt impl op b atol btol it x0 (h, log)
  = (fst (impl op b atol btol it x0 h),
     (snd (impl op b atol btol it x0 h),
      log ++ [recorded rt op b atol btol it x0 h])).
Proof.
  unfold call_solver. simpl.
  destruct (impl op b atol btol it x0 h). reflexivity.
Qed.

Lemma call_solver_inv_ok rt (impl : solver F) op b atol btol it x0
    (s s' : state F) res :
  call_solver rt impl op b atol btol it x0 s = (Ok res, s') ->
  impl op b atol btol it x0 (fst s) = (Ok res, fst s') /\
  snd s' = snd s ++ [recorded rt op b atol btol it x0 (fst s)].
Proof.
  destruct s as [h log], s' as [h' log']. rewrite call_solver_run. simpl.
  destruct (impl op b atol btol it x0 h) as [o h''] eqn:Hc. simpl.
  intros Hrun. inversion Hrun; subst. auto.
Qed.

Lemma keeps_log_lift {X} (c : HM F X) : keeps_log (lift c).
Proof. intros [h log]. rewrite lift_run. reflexivity. Qed.

Lemma keeps_log_ret {X} (a : X) : keeps_log (ret a : EM F X).
Proof. intros s. reflexivity. Qed.

Lemma keeps_log_bind {X Y} (c : EM F X) (k : X -> EM F Y) :
  keeps_log c -> (forall a, keeps_log (k a)) -> keeps_log (bind c k).
Proof.
  intros Hc Hk s. unfold bind. specialize (Hc s).
  destruct (c s) as [[a|e] s1]; simpl in *.
  - rewrite Hk. exact Hc.
  - exact Hc.
Qed.

(** After a solver call, a continuation that calls no solver leaves
    exactly that call in the record. *)
Lemma call_then_log {B} rt (impl : solver F) op b atol btol it x0
    (k : SolverResult F -> EM F B) h log :
  (forall res, keeps_log (k res)) ->
  snd (snd (bind (call_solver rt impl op b atol btol it x0) k (h, log)))
  = log ++ [recorded rt op b atol btol it x0 h].
Proof.
  intros Hk. unfold bind. rewrite call_solver_run.
  destruct (impl op b atol btol it x0 h) as [[res|e] h']; simpl.
  - rewrite Hk. reflexivity.
  - reflexivity.
Qed.

Variable lsqr_impl : solver F.
Variable cg_impl : solver F.

(** The record after [upper_tri_precond_lsqr]: either no call was made,
    or one call to LSQR with the right-hand side [b] as given and, as
    initial guess, a new array holding [R @ x0]. *)
Lemma upper_tri_precond_lsqr_log A b R tol it x0 h log :
  let log' := snd (snd (upper_tri_precond_lsqr lsqr_impl A b R tol it x0
                          (h, log))) in
  log' = log \/
  exists y0 hc,
    log' = log ++ [recorded LSQR (a_times_inv_r_op A R (length h)) b
                     tol tol it y0 hc] /\
    modifies [] h hc /\
    match x0 with
    | Some p => exists xv h1, h1 !! p = Some xv /\ modifies [] h h1 /\
                  length xv = ncols R /\
                  hc = h1 ++ [matvec_val R xv] /\ y0 = Some (length h1)
    | None => y0 = None
    end.
Proof.
  intros log'.
  assert (E : log' = snd (snd (upper_tri_precond_lsqr lsqr_impl A b R tol it
                                 x0 (h, log)))) by reflexivity.
  clearbody log'. unfold upper_tri_precond_lsqr in E.
  unfold bind at 1 in E. rewrite lift_run in E.
  pose proof (a_times_inv_r_frame A R h) as Hfr.
  destruct (a_times_inv_r A R h) as [[op|e] h1] eqn:Hop;
    simpl fst in E; simpl snd in E; [|left; exact E].
  apply a_times_inv_r_inv in Hop as ->. simpl in Hfr.
  assert (Hk : forall res : SolverResult F,
             keeps_log (_ <- lift (solve_triangular R (sol res) NoTrans
                                     true true) ;; ret res)).
  { intros res. apply keeps_log_bind; [apply keeps_log_lift|].
    intros _. apply keeps_log_ret. }
  destruct x0 as [p|].
  - unfold bind at 1 in E. unfold bind at 1 in E. rewrite lift_run in E.
    destruct (bind (matmul R p) (fun y => ravel y) h1) as [[y0|e] h2] eqn:Hy;
      simpl fst in E; simpl snd in E; [|left; exact E].
    apply bind_inv_ok in Hy as (y & h2' & Hmm & Hrav).
    inversion Hrav; subst y0 h2'; clear Hrav.
    apply matmul_inv in Hmm as (xv & Hp & Hxv & -> & ->).
    right. exists (Some (length h1)), (h1 ++ [matvec_val R xv]).
    split; [|split].
    + rewrite E.
      apply (call_then_log LSQR lsqr_impl (a_times_inv_r_op A R (length h))
               b tol tol it (Some (length h1)) _
               (h1 ++ [matvec_val R xv]) log Hk).
    + eapply modifies_trans; [exact Hfr | apply modifies_app].
    + exists xv, h1. auto.
  - right. exists None, h1. split; [|split; [exact Hfr | reflexivity]].
    rewrite E.
    apply (call_then_log LSQR lsqr_impl (a_times_inv_r_op A R (length h))
             b tol tol it None _ h1 log Hk).
Qed.

(** The record after [upper_tri_precond_cg]: either no call was made,
    or one call to CG whose right-hand side is a new array holding the
    transposed triangular solve of [b] and whose initial guess, if any,
    is a new array holding [R @ x0]. *)
Lemma upper_tri_precond_cg_log A b R tol it x0 h log :
  let log' := snd (snd (upper_tri_precond_cg cg_impl A b R tol it x0
                          (h, log))) in
  log' = log \/
  exists y0 hc hb bv,
    log' = log ++ [recorded CG
                     (lr_precond_gram_op A R (length h) (S (length h)))
                     (length hb) tol tol it y0 hc] /\
    modifies [] h hb /\
    hb !! b = Some bv /\ accepted R bv false /\
    modifies [] (hb ++ [trsv R Trans bv]) hc /\
    match x0 with
    | Some p => exists xv, (hb ++ [trsv R Trans bv]) !! p = Some xv /\
                  length xv = ncols R /\
                  hc = (hb ++ [trsv R Trans bv]) ++ [matvec_val R xv] /\
                  y0 = Some (S (length hb))
    | None => y0 = None /\ hc = hb ++ [trsv R Trans bv]
    end.
Proof.
  intros log'.
  assert (E : log' = snd (snd (upper_tri_precond_cg cg_impl A b R tol it
                                 x0 (h, log)))) by reflexivity.
  clearbody log'. unfold upper_tri_precond_cg in E.
  unfold bind at 1 in E. rewrite lift_run in E.
  pose proof (lr_precond_gram_frame A R h) as Hfr.
  destruct (lr_precond_gram A R h) as [[op|e] hb] eqn:Hop;
    simpl fst in E; simpl snd in E; [|left; exact E].
  apply lr_precond_gram_inv in Hop as ->. simpl in Hfr.
  unfold bind at 1 in E. rewrite lift_run in E.
  destruct (solve_triangular R b Trans false false hb) as [[bp|e] h2] eqn:Hbp;
    simpl fst in E; simpl snd in E; [|left; exact E].
  apply solve_triangular_inv in Hbp as (bv & Hb & Hacc & -> & ->).
  assert (Hk : forall res : SolverResult F,
             keeps_log (_ <- lift (solve_triangular R (sol res) NoTrans
                                     true true) ;; ret res)).
  { intros res. apply keeps_log_bind; [apply keeps_log_lift|].
    intros _. apply keeps_log_ret. }
  set (h2 := hb ++ [trsv R Trans bv]) in *.
  destruct x0 as [p|].
  - unfold bind at 1 in E. unfold bind at 1 in E. rewrite lift_run in E.
    destruct (bind (matmul R p) (fun y => ravel y) h2) as [[y0|e] h3] eqn:Hy;
      simpl fst in E; simpl snd in E; [|left; exact E].
    apply bind_inv_ok in Hy as (y & h3' & Hmm & Hrav).
    inversion Hrav; subst y0 h3'; clear Hrav.
    apply matmul_inv in Hmm as (xv & Hp & Hxv & -> & ->).
    right. exists (Some (length h2)), (h2 ++ [matvec_val R xv]), hb, bv.
    split.
    { rewrite E.
      apply (call_then_log CG cg_impl
               (lr_precond_gram_op A R (length h) (S (length h)))
               (length hb) tol tol it (Some (length h2)) _
               (h2 ++ [matvec_val R xv]) log Hk). }
    split; [exact Hfr|]. split; [exact Hb|]. split; [exact Hacc|].
    split; [apply modifies_app|].
    exists xv. split; [exact Hp|]. split; [exact Hxv|].
    split; [reflexivity|].
    unfold h2. rewrite length_app. simpl. f_equal. lia.
  - right. exists None, h2, hb, bv.
    split.
    { rewrite E.
      apply (call_then_log CG cg_impl
               (lr_precond_gram_op A R (length h) (S (length h)))
               (length hb) tol tol it None _ h2 log Hk). }
    split; [exact Hfr|]. split; [exact Hb|]. split; [exact Hacc|].
    split; [apply modifies_refl|]. split; reflexivity.
Qed.

(** The record after [pinv_precond_lsqr]: no call, or one call to LSQR
    with the right-hand side [b] as given and no initial guess. *)
Lemma pinv_precond_lsqr_log A b N tol it h log :
  let log' := snd (snd (pinv_precond_lsqr lsqr_impl A b N tol it
                          (h, log))) in
  log' = log \/
  exists hc,
    log' = log ++ [recorded LSQR (pinv_precond_lsqr_op A N (length h)) b
                     tol tol it None hc] /\
    modifies [] h hc.
Proof.
  intros log'.
  assert (E : log' = snd (snd (pinv_precond_lsqr lsqr_impl A b N tol it
                                 (h, log)))) by reflexivity.
  clearbody log'. unfold pinv_precond_lsqr in E.
  unfold bind at 1 in E. rewrite lift_run in E.
  unfold np_zeros, alloc in E. simpl fst in E. simpl snd in E.
  unfold bind at 1 in E. rewrite lift_run in E.
  set (h0 := h ++ [repeat zero (ncols A)]) in *.
  pose proof (touches_LinearOperator_new [length h] (nrows A, ncols N)
                (pinv_precond_lsqr_mv A N (length h))
                (pinv_precond_lsqr_rmv A N (length h))
                (touches_pinv_precond_lsqr_mv A N (length h)) h0) as Hnew.
  destruct (LinearOperator_new _ _ _ h0) as [[op|e] h1] eqn:Hop;
    simpl fst in E; simpl snd in E; [|left; exact E].
  apply LinearOperator_new_inv in Hop as ->. simpl in Hnew.
  right. exists h1. split.
  - rewrite E.
    apply (call_then_log LSQR lsqr_impl (pinv_precond_lsqr_op A N (length h))
             b tol tol it None _ h1 log).
    intros res. apply keeps_log_bind; [apply keeps_log_lift|].
    intros x. apply keeps_log_ret.
  - eapply modifies_fresh; [apply (modifies_app [] h) | exact Hnew |].
    intros w [<-|[]]. right. lia.
Qed.

End Calls.

(** ** What the entry points return *)

Section ResultsPinv.
Context {F : Type} `{Scalar F}.

Implicit Types (h : heap F) (A R N : ndarray2 F).
Implicit Types (log : list (solver_call F)).

Variable lsqr_impl : solver F.

(** C7.  When [pinv_precond_lsqr] returns, exactly one call to LSQR was
    made.  The solution component of the returned tuple is a new array
    holding [N y], where [y] is the contents of the solver's solution
    array; the solver's array still holds [y], the store the solver left
    is otherwise unchanged, and the other components of the tuple are
    those the solver returned. *)
Theorem pinv_precond_lsqr_result A b N tol iter_lim h log res' h' log' :
  pinv_precond_lsqr lsqr_impl A b N tol iter_lim (h, log)
  = (Ok res', (h', log')) ->
  exists call res hs y,
    log' = log ++ [call] /\
    sc_routine call = LSQR /\
    lsqr_impl (pinv_precond_lsqr_op A N (length h)) b tol tol iter_lim
      None (sc_heap call) = (Ok res, hs) /\
    hs !! sol res = Some y /\
    sol res' = length hs /\
    h' = hs ++ [matvec_val N y] /\
    rest res' = rest res /\
    sol res' <> sol res /\
    h' !! sol res = Some y /\
    h' !! sol res' = Some (matvec_val N y).
Proof.
  intros Hrun. unfold pinv_precond_lsqr in Hrun.
  apply bind_inv_ok in Hrun as (work & [h0 l0] & Hwork & Hrun).
  apply lift_inv_ok in Hwork as [Hwork Hl0]. simpl in Hwork, Hl0.
  inversion Hwork; subst work h0 l0; clear Hwork.
  apply bind_inv_ok in Hrun as (op & [h1 l1] & Hop & Hrun).
  apply lift_inv_ok in Hop as [Hop Hl1]. simpl in Hop, Hl1. subst l1.
  apply LinearOperator_new_inv in Hop as ->.
  apply bind_inv_ok in Hrun as (res & [hs l2] & Hcall & Hrun).
  apply call_solver_inv_ok in Hcall as [Hcall Hlog].
  simpl in Hcall, Hlog.
  apply bind_inv_ok in Hrun as (xr & [h3 l3] & Hmul & Hret).
  inversion Hret; subst res' h3 l3; clear Hret.
  apply lift_inv_ok in Hmul as [Hmul Hl2]. simpl in Hmul, Hl2. subst log'.
  apply matmul_inv in Hmul as (y & Hy & Hlen & -> & ->).
  pose proof (lookup_lt_Some _ _ _ Hy) as Hlt.
  eexists _, res, hs, y. split; [exact Hlog|]. simpl.
  split; [reflexivity|]. split; [exact Hcall|]. split; [exact Hy|].
  split; [reflexivity|]. split; [reflexivity|]. split; [reflexivity|].
  split; [lia|]. split.
  - rewrite lookup_app_l by exact Hlt. exact Hy.
  - apply lookup_snoc.
Qed.

End ResultsPinv.

(** ** What the entry points pass to the solvers *)

Section Passing.
Context {F : Type} `{Scalar F}.

Implicit Types (h : heap F) (A R N : ndarray2 F).
Implicit Types (log : list (solver_call F)).

Variable lsqr_impl : solver F.
Variable cg_impl : solver F.

Lemma snoc_neq {X} (l : list X) (a : X) : l ++ [a] <> l.
Proof.
  intros Heq. apply (f_equal (@length X)) in Heq.
  rewrite length_app in Heq. simpl in Heq. lia.
Qed.

Lemma transformed_guess_ok R p h xv :
  h !! p = Some xv -> length xv = ncols R ->
  bind (matmul R p) (fun y => ravel y) h
  = (Ok (length h), h ++ [matvec_val R xv]).
Proof.
  intros Hp Hxv. rewrite (bind_ok _ _ _ _ _ (matmul_ok _ R p xv Hp Hxv)).
  reflexivity.
Qed.

(** On well-shaped arguments [upper_tri_precond_lsqr] reaches LSQR. *)
Lemma upper_tri_precond_lsqr_calls A b R tol it x0 h log :
  nrows R = ncols R -> nrows R = ncols A -> zero_on_diagonal R = false ->
  guess_fits R x0 h ->
  exists call,
    snd (snd (upper_tri_precond_lsqr lsqr_impl A b R tol it x0 (h, log)))
    = log ++ [call].
Proof.
  intros Hsq Hm Hdiag Hx0.
  destruct (a_times_inv_r_ok A R h Hsq Hm Hdiag) as (h1 & Hop & _).
  pose proof (a_times_inv_r_frame A R h) as Hfr. rewrite Hop in Hfr.
  simpl in Hfr.
  unfold upper_tri_precond_lsqr.
  rewrite (bind_ok _ _ _ _ _ (lift_ok _ _ log _ _ Hop)).
  assert (Hk : forall res : SolverResult F,
             keeps_log (_ <- lift (solve_triangular R (sol res) NoTrans
                                     true true) ;; ret res)).
  { intros res. apply keeps_log_bind; [apply keeps_log_lift|].
    intros _. apply keeps_log_ret. }
  destruct x0 as [p|].
  - destruct Hx0 as (xv & Hp & Hxv).
    pose proof (modifies_lookup _ _ _ _ _ Hfr Hp (@in_nil _ _)) as Hp1.
    unfold bind at 1.
    rewrite (bind_ok _ _ _ _ _
               (lift_ok _ _ log _ _ (transformed_guess_ok R p h1 xv Hp1 Hxv))).
    eexists.
    apply (call_then_log LSQR lsqr_impl _ b tol tol it _ _ _ log Hk).
  - eexists.
    apply (call_then_log LSQR lsqr_impl _ b tol tol it None _ h1 log Hk).
Qed.

(** On well-shaped arguments [upper_tri_precond_cg] reaches CG. *)
Lemma upper_tri_precond_cg_calls A b R tol it x0 h log bv :
  nrows R = ncols R -> nrows R = ncols A -> zero_on_diagonal R = false ->
  guess_fits R x0 h ->
  h !! b = Some bv -> length bv = nrows R ->
  exists call,
    snd (snd (upper_tri_precond_cg cg_impl A b R tol it x0 (h, log)))
    = log ++ [call].
Proof.
  intros Hsq Hm Hdiag Hx0 Hb Hbv.
  destruct (lr_precond_gram_ok A R h Hsq Hm Hdiag) as (h1 & Hop & _).
  pose proof (lr_precond_gram_frame A R h) as Hfr. rewrite Hop in Hfr.
  simpl in Hfr.
  unfold upper_tri_precond_cg.
  rewrite (bind_ok _ _ _ _ _ (lift_ok _ _ log _ _ Hop)).
  pose proof (modifies_lookup _ _ _ _ _ Hfr Hb (@in_nil _ _)) as Hb1.
  assert (Hacc : accepted R bv false)
    by (repeat split; try assumption; [discriminate | congruence]).
  rewrite (bind_ok _ _ _ _ _
             (lift_ok _ _ log _ _
                (solve_triangular_ok h1 R b Trans false false bv Hb1 Hacc))).
  assert (Hk : forall res : SolverResult F,
             keeps_log (_ <- lift (solve_triangular R (sol res) NoTrans
                                     true true) ;; ret res)).
  { intros res. apply keeps_log_bind; [apply keeps_log_lift|].
    intros _. apply keeps_log_ret. }
  destruct x0 as [p|].
  - destruct Hx0 as (xv & Hp & Hxv).
    pose proof (modifies_lookup _ _ _ _ _ Hfr Hp (@in_nil _ _)) as Hp1.
    assert (Hp2 : (h1 ++ [trsv R Trans bv]) !! p = Some xv)
      by (rewrite lookup_app_l by (eapply lookup_lt_Some; eauto); exact Hp1).
    unfold bind at 1.
    rewrite (bind_ok _ _ _ _ _
               (lift_ok _ _ log _ _ (transformed_guess_ok R p _ xv Hp2 Hxv))).
    eexists.
    apply (call_then_log CG cg_impl _ _ tol tol it _ _ _ log Hk).
  - eexists.
    apply (call_then_log CG cg_impl _ _ tol tol it None _ _ log Hk).
Qed.

(** C5.  Every call that [upper_tri_precond_lsqr] or
    [upper_tri_precond_cg] makes to its solver (there is at most one)
    has as initial guess a new array holding [R @ x0] when [x0] is
    given, and no initial guess when [x0] is [None]; and on well-shaped
    arguments the call is made. *)
Theorem initial_guess_passed A b R tol iter_lim x0 h log :
  let log_lsqr :=
    snd (snd (upper_tri_precond_lsqr lsqr_impl A b R tol iter_lim x0
                (h, log))) in
  let log_cg :=
    snd (snd (upper_tri_precond_cg cg_impl A b R tol iter_lim x0
                (h, log))) in
  (log_lsqr = log \/
   exists call, log_lsqr = log ++ [call] /\ sc_routine call = LSQR /\
                carries_guess R x0 h call) /\
  (log_cg = log \/
   exists call, log_cg = log ++ [call] /\ sc_routine call = CG /\
                carries_guess R x0 h call) /\
  (nrows R = ncols R -> nrows R = ncols A -> zero_on_diagonal R = false ->
   guess_fits R x0 h ->
   log_lsqr <> log /\
   ((exists bv, h !! b = Some bv /\ length bv = nrows R) -> log_cg <> log)).
Proof.
  intros log_lsqr log_cg. split; [|split].
  - destruct (upper_tri_precond_lsqr_log lsqr_impl A b R tol iter_lim x0
                h log) as [Hsame | (y0 & hc & Hlog & Hfr & Hx0)];
      [left; exact Hsame | right].
    eexists. split; [exact Hlog|]. split; [reflexivity|].
    destruct x0 as [p|]; simpl.
    + destruct Hx0 as (xv' & h1 & Hp1 & Hfr1 & _ & -> & ->).
      intros xv Hp.
      pose proof (modifies_lookup _ _ _ _ _ Hfr1 Hp (@in_nil _ _)) as Hp'.
      assert (xv' = xv) by congruence. subst xv'.
      exists (length h1). split; [reflexivity|]. split.
      * apply lookup_ge_None. destruct Hfr1 as [Hle _]. exact Hle.
      * apply lookup_snoc.
    + exact Hx0.
  - destruct (upper_tri_precond_cg_log cg_impl A b R tol iter_lim x0 h log)
      as [Hsame | (y0 & hc & hb & bv & Hlog & Hfr & Hb & _ & _ & Hx0)];
      [left; exact Hsame | right].
    eexists. split; [exact Hlog|]. split; [reflexivity|].
    destruct x0 as [p|]; simpl.
    + destruct Hx0 as (xv' & Hp1 & _ & -> & ->).
      intros xv Hp.
      pose proof (modifies_lookup _ _ _ _ _ Hfr Hp (@in_nil _ _)) as Hp'.
      rewrite lookup_app_l in Hp1 by (eapply lookup_lt_Some; eauto).
      pose proof (eq_trans (eq_sym Hp1) Hp') as Heq.
      inversion Heq; subst xv'; clear Heq.
      exists (S (length hb)). split; [reflexivity|]. split.
      * apply lookup_ge_None. destruct Hfr as [Hle _]. lia.
      * apply list_lookup_middle. rewrite length_app. simpl. lia.
    + apply Hx0.
  - intros Hsq Hm Hdiag Hx0. split.
    + destruct (upper_tri_precond_lsqr_calls A b R tol iter_lim x0 h log
                  Hsq Hm Hdiag Hx0) as (call & Hlog).
      unfold log_lsqr. rewrite Hlog. apply snoc_neq.
    + intros (bv & Hb & Hbv).
      destruct (upper_tri_precond_cg_calls A b R tol iter_lim x0 h log bv
                  Hsq Hm Hdiag Hx0 Hb Hbv) as (call & Hlog).
      unfold log_cg. rewrite Hlog. apply snoc_neq.
Qed.

End Passing.

Section PassingExact.
Context {F : Type} `{ExactScalar F}.

Implicit Types (h : heap F) (A R N : ndarray2 F).
Implicit Types (log : list (solver_call F)).

Variable cg_impl : solver F.

(** C6.  Every call that [upper_tri_precond_cg] makes to CG (there is
    at most one) has as right-hand side a new array holding the
    transposed triangular solve of the supplied [b] with [R], that is
    the [y] with [R^T y = b]; the matrix [A] does not enter this value.
    On well-shaped arguments the call is made. *)
Theorem cg_right_hand_side A b R tol iter_lim x0 h log bv :
  h !! b = Some bv ->
  let log' :=
    snd (snd (upper_tri_precond_cg cg_impl A b R tol iter_lim x0
                (h, log))) in
  (log' = log \/
   exists call,
     log' = log ++ [call] /\ sc_routine call = CG /\
     h !! sc_rhs call = None /\
     sc_heap call !! sc_rhs call = Some (trsv R Trans bv) /\
     (upper_triangular R ->
      matvec_val (transpose R) (trsv R Trans bv) = bv)) /\
  (nrows R = ncols R -> nrows R = ncols A -> zero_on_diagonal R = false ->
   guess_fits R x0 h -> length bv = nrows R ->
   log' <> log).
Proof.
  intros Hb log'. split.
  - destruct (upper_tri_precond_cg_log cg_impl A b R tol iter_lim x0 h log)
      as [Hsame | (y0 & hc & hb & bv' & Hlog & Hfr & Hb' & Hacc & Hfr2 & _)];
      [left; exact Hsame | right].
    pose proof (modifies_lookup _ _ _ _ _ Hfr Hb (@in_nil _ _)) as Hb1.
    assert (bv' = bv) by congruence. subst bv'.
    eexists. split; [exact Hlog|]. split; [reflexivity|]. simpl.
    split; [|split].
    + apply lookup_ge_None. destruct Hfr as [Hle _]. exact Hle.
    + eapply modifies_lookup; [exact Hfr2 | apply lookup_snoc | apply in_nil].
    + intros Hup. destruct Hacc as (_ & Hsq & Hlen & Hdiag).
      apply forward_subst_solves;
        [ congruence | exact Hup
        | apply zero_on_diagonal_false_inv; exact Hdiag | congruence ].
  - intros Hsq Hm Hdiag Hx0 Hbv.
    destruct (upper_tri_precond_cg_calls cg_impl A b R tol iter_lim x0 h log
                bv Hsq Hm Hdiag Hx0 Hb Hbv) as (call & Hlog).
    unfold log'. rewrite Hlog. apply snoc_neq.
Qed.

End PassingExact.

(** ** The scratch buffers are private *)

Section Privacy.
Context {F : Type} `{Scalar F}.

Implicit Types (h : heap F) (A R N : ndarray2 F).

Lemma returns_fresh_alloc (x : list F) : returns_fresh (alloc x).
Proof. intros h r h' Hrun. inversion Hrun. lia. Qed.

Lemma returns_fresh_bind {X} ws (c : HM F X) (k : X -> HM F ref) :
  touches ws c -> (forall a, returns_fresh (k a)) ->
  returns_fresh (bind c k).
Proof.
  intros Hc Hk h r h' Hrun.
  apply bind_inv_ok in Hrun as (a & h1 & Hca & Hka).
  pose proof (Hc h) as [Hle _]. rewrite Hca in Hle. simpl in Hle.
  apply Hk in Hka. lia.
Qed.

Lemma returns_fresh_bind_ret (c : HM F ref) :
  returns_fresh c -> returns_fresh (bind c (fun r => ret r)).
Proof.
  intros Hc h r h' Hrun.
  apply bind_inv_ok in Hrun as (a & h1 & Hca & Hka).
  inversion Hka; subst. eapply Hc. exact Hca.
Qed.

Lemma returns_fresh_matmul (M : ndarray2 F) v : returns_fresh (matmul M v).
Proof.
  intros h r h' Hrun. apply matmul_inv in Hrun as (x & _ & _ & -> & _). lia.
Qed.

Lemma returns_fresh_solve_triangular R b t cf :
  returns_fresh (solve_triangular R b t cf false).
Proof.
  intros h r h' Hrun.
  apply solve_triangular_inv in Hrun as (x & _ & _ & -> & _). lia.
Qed.

Lemma returns_fresh_matvec (op : LinearOperator F) v :
  returns_fresh (matvec_impl op v) -> returns_fresh (matvec op v).
Proof.
  intros Himpl h r h' Hrun. unfold matvec in Hrun.
  apply bind_inv_ok in Hrun as (xv & h1 & Hread & Hrun).
  apply read_inv in Hread as [_ ->].
  destruct (length xv =? snd (op_shape op)); [|discriminate].
  apply bind_inv_ok in Hrun as (y & h2 & Hy & Hrun).
  apply bind_inv_ok in Hrun as (yv & h3 & Hread & Hrun).
  destruct (length yv =? fst (op_shape op)); [|discriminate].
  inversion Hrun; subst. eapply Himpl. exact Hy.
Qed.

Lemma returns_fresh_rmatvec (op : LinearOperator F) v :
  returns_fresh (rmatvec_impl op v) -> returns_fresh (rmatvec op v).
Proof.
  intros Himpl h r h' Hrun. unfold rmatvec in Hrun.
  apply bind_inv_ok in Hrun as (xv & h1 & Hread & Hrun).
  apply read_inv in Hread as [_ ->].
  destruct (length xv =? fst (op_shape op)); [|discriminate].
  apply bind_inv_ok in Hrun as (y & h2 & Hy & Hrun).
  apply bind_inv_ok in Hrun as (yv & h3 & Hread & Hrun).
  destruct (length yv =? snd (op_shape op)); [|discriminate].
  inversion Hrun; subst. eapply Himpl. exact Hy.
Qed.

Lemma returns_fresh_a_times_inv_r_mv A R work vec :
  returns_fresh (a_times_inv_r_mv A R work vec).
Proof.
  unfold a_times_inv_r_mv.
  apply (returns_fresh_bind [work]);
    [apply touches_np_copyto, in_eq | intros _].
  apply (returns_fresh_bind [work]);
    [apply touches_solve_triangular; intros _; apply in_eq | intros _].
  apply returns_fresh_matmul.
Qed.

Lemma returns_fresh_a_times_inv_r_rmv A R work vec :
  returns_fresh (a_times_inv_r_rmv A R work vec).
Proof.
  unfold a_times_inv_r_rmv.
  apply (returns_fresh_bind [work]);
    [apply touches_np_dot_out, in_eq | intros _].
  apply returns_fresh_solve_triangular.
Qed.

Lemma returns_fresh_lr_precond_gram_mv A R work1 work2 vec :
  returns_fresh (lr_precond_gram_mv A R work1 work2 vec).
Proof.
  unfold lr_precond_gram_mv.
  apply (returns_fresh_bind [work1; work2]);
    [apply touches_np_copyto, in_eq | intros _].
  apply (returns_fresh_bind [work1; work2]);
    [apply touches_solve_triangular; intros _; apply in_eq | intros _].
  apply (returns_fresh_bind [work1; work2]);
    [apply touches_np_dot_out, in_cons, in_eq | intros _].
  apply (returns_fresh_bind [work1; work2]);
    [apply touches_np_dot_out, in_eq | intros _].
  apply returns_fresh_bind_ret, returns_fresh_solve_triangular.
Qed.

Lemma returns_fresh_pinv_precond_lsqr_mv A N work vec :
  returns_fresh (pinv_precond_lsqr_mv A N work vec).
Proof.
  unfold pinv_precond_lsqr_mv.
  apply (returns_fresh_bind [work]);
    [apply touches_np_dot_out, in_eq | intros _].
  apply returns_fresh_matmul.
Qed.

Lemma returns_fresh_pinv_precond_lsqr_rmv A N work vec :
  returns_fresh (pinv_precond_lsqr_rmv A N work vec).
Proof.
  unfold pinv_precond_lsqr_rmv.
  apply (returns_fresh_bind [work]);
    [apply touches_np_dot_out, in_eq | intros _].
  apply returns_fresh_matmul.
Qed.

Lemma private_scratch_intro ws (app : ref -> HM F ref) :
  (forall vec, touches ws (app vec)) ->
  (forall vec, returns_fresh (app vec)) ->
  private_scratch ws app.
Proof.
  intros Ht Hf h vec. split; [apply Ht|]. split.
  - intros xv Hvec Hws. eapply modifies_lookup; eauto. apply Ht.
  - intros r Hr. destruct (app vec h) as [o h'] eqn:Hrun. simpl in Hr.
    subst o. eapply Hf. exact Hrun.
Qed.

(** C10.  Every operator of the module keeps its scratch to itself.
    The operator returned by [a_times_inv_r] (resp. [lr_precond_gram])
    uses as scratch the one array (resp. two arrays) that the call
    allocated, which did not exist before; likewise the operator built
    in [pinv_precond_lsqr] with its buffer [work].  A forward or adjoint
    application writes to no existing array other than the scratch, so
    the input vector, which is not the scratch, is unchanged, whether
    the application returns or raises; and the array it returns is new.
    *)
Theorem operators_preserve_input A R N :
  (forall h op h', a_times_inv_r A R h = (Ok op, h') ->
     op = a_times_inv_r_op A R (length h) /\ h !! length h = None) /\
  (forall h op h', lr_precond_gram A R h = (Ok op, h') ->
     op = lr_precond_gram_op A R (length h) (S (length h)) /\
     h !! length h = None /\ h !! S (length h) = None) /\
  (forall work,
     private_scratch [work] (matvec (a_times_inv_r_op A R work)) /\
     private_scratch [work] (rmatvec (a_times_inv_r_op A R work)) /\
     private_scratch [work] (matvec (pinv_precond_lsqr_op A N work)) /\
     private_scratch [work] (rmatvec (pinv_precond_lsqr_op A N work))) /\
  (forall work1 work2,
     private_scratch [work1; work2]
       (matvec (lr_precond_gram_op A R work1 work2)) /\
     private_scratch [work1; work2]
       (rmatvec (lr_precond_gram_op A R work1 work2))).
Proof.
  split; [|split; [|split]].
  - intros h op h' Hrun. split.
    + eapply a_times_inv_r_inv. exact Hrun.
    + apply lookup_ge_None. lia.
  - intros h op h' Hrun. split; [|split].
    + eapply lr_precond_gram_inv. exact Hrun.
    + apply lookup_ge_None. lia.
    + apply lookup_ge_None. lia.
  - intros work. split; [|split; [|split]].
    all: apply private_scratch_intro; intros vec.
    all: first
      [ apply touches_matvec; simpl
      | apply touches_rmatvec; simpl
      | apply returns_fresh_matvec; simpl
      | apply returns_fresh_rmatvec; simpl ].
    all: auto using touches_a_times_inv_r_mv, touches_a_times_inv_r_rmv,
      touches_pinv_precond_lsqr_mv, touches_pinv_precond_lsqr_rmv,
      returns_fresh_a_times_inv_r_mv, returns_fresh_a_times_inv_r_rmv,
      returns_fresh_pinv_precond_lsqr_mv,
      returns_fresh_pinv_precond_lsqr_rmv.
  - intros work1 work2. split.
    all: apply private_scratch_intro; intros vec.
    all: first
      [ apply touches_matvec; simpl
      | apply touches_rmatvec; simpl
      | apply returns_fresh_matvec; simpl
      | apply returns_fresh_rmatvec; simpl ].
    all: auto using touches_lr_precond_gram_mv,
      returns_fresh_lr_precond_gram_mv.
Qed.

End Privacy.

(** ** Errors *)

Section Errors.
Context {F : Type} `{Scalar F}.

Implicit Types (h : heap F) (A R N : ndarray2 F).
Implicit Types (log : list (solver_call F)).

Lemma fails_raise {S X} (e : exn) : fails (@raise S X e).
Proof. intros s. exists e, s. reflexivity. Qed.

Lemma fails_matvec (op : LinearOperator F) v :
  fails (matvec_impl op v) -> fails (matvec op v).
Proof.
  intros Himpl. unfold matvec. apply fails_bind_r. intros xv.
  destruct (length xv =? snd (op_shape op)).
  - apply fails_bind_l. exact Himpl.
  - apply fails_raise.
Qed.

Lemma fails_LinearOperator_new (shp : nat * nat) (mv rmv : ref -> HM F ref) :
  (forall v, fails (mv v)) -> fails (LinearOperator_new shp mv rmv).
Proof.
  intros Hmv. unfold LinearOperator_new. apply fails_bind_r. intros v.
  apply fails_bind_l, fails_matvec. simpl. apply Hmv.
Qed.

Section Singular.
Variable R : ndarray2 F.
Hypothesis R_singular : zero_on_diagonal R = true.

Lemma fails_solve_triangular b t cf ov :
  fails (solve_triangular R b t cf ov).
Proof.
  intros h.
  destruct (solve_triangular_singular h R b t cf ov R_singular) as (e & He).
  eauto.
Qed.

Lemma fails_a_times_inv_r_mv A work vec :
  fails (a_times_inv_r_mv A R work vec).
Proof.
  unfold a_times_inv_r_mv. apply fails_bind_r. intros _.
  apply fails_bind_l, fails_solve_triangular.
Qed.

Lemma fails_a_times_inv_r_rmv A work vec :
  fails (a_times_inv_r_rmv A R work vec).
Proof.
  unfold a_times_inv_r_rmv. apply fails_bind_r. intros _.
  apply fails_solve_triangular.
Qed.

Lemma fails_lr_precond_gram_mv A work1 work2 vec :
  fails (lr_precond_gram_mv A R work1 work2 vec).
Proof.
  unfold lr_precond_gram_mv. apply fails_bind_r. intros _.
  apply fails_bind_l, fails_solve_triangular.
Qed.

Lemma fails_a_times_inv_r A : fails (a_times_inv_r A R).
Proof.
  unfold a_times_inv_r. apply fails_bind_r. intros work.
  apply fails_bind_l, fails_LinearOperator_new.
  intros v. apply fails_a_times_inv_r_mv.
Qed.

Lemma fails_lr_precond_gram A : fails (lr_precond_gram A R).
Proof.
  unfold lr_precond_gram. apply fails_bind_r. intros work1.
  apply fails_bind_r. intros work2.
  apply fails_bind_l, fails_LinearOperator_new.
  intros v. apply fails_lr_precond_gram_mv.
Qed.

(** With matching shapes the probe of the constructor reaches the
    triangular solve, and it is the solver's [LinAlgError] that comes
    out. *)
Lemma a_times_inv_r_singular A h :
  nrows R = ncols R -> nrows R = ncols A ->
  exists h', a_times_inv_r A R h = (Raise LinAlgError, h').
Proof.
  intros Hsq Hm. unfold a_times_inv_r, np_zeros.
  set (z := repeat zero (ncols A)).
  assert (Hz : length z = ncols A) by apply repeat_length.
  assert (Halloc : alloc z h = (Ok (length h), h ++ [z])) by reflexivity.
  rewrite (bind_ok _ _ _ _ _ Halloc).
  set (h1 := (h ++ [z]) ++ [repeat zero (snd (shape A))]).
  assert (Hw : h1 !! length h = Some z).
  { unfold h1. rewrite lookup_app_l
      by (rewrite length_app; simpl; lia).
    apply lookup_snoc. }
  assert (Hv : h1 !! length (h ++ [z]) = Some z) by apply lookup_snoc.
  assert (Hmv : a_times_inv_r_mv A R (length h) (length (h ++ [z])) h1
                = (Raise LinAlgError, <[length h := z]> h1)).
  { unfold a_times_inv_r_mv.
    rewrite (bind_ok _ _ _ _ _
               (np_copyto_ok h1 _ _ z z Hw Hv eq_refl)).
    apply bind_raise.
    apply solve_triangular_singular_LinAlgError with (x := z);
      try assumption; try congruence; try discriminate.
    apply list_lookup_insert_eq. eapply lookup_lt_Some. exact Hw. }
  eexists. apply bind_raise.
  apply LinearOperator_new_raise. exact Hmv.
Qed.

Lemma lr_precond_gram_singular A h :
  nrows R = ncols R -> nrows R = ncols A ->
  exists h', lr_precond_gram A R h = (Raise LinAlgError, h').
Proof.
  intros Hsq Hm. unfold lr_precond_gram, np_zeros.
  set (z := repeat zero (ncols A)). set (z2 := repeat zero (nrows A)).
  assert (Hz : length z = ncols A) by apply repeat_length.
  assert (Ha1 : alloc z h = (Ok (length h), h ++ [z])) by reflexivity.
  rewrite (bind_ok _ _ _ _ _ Ha1).
  assert (Ha2 : alloc z2 (h ++ [z])
                = (Ok (length (h ++ [z])), (h ++ [z]) ++ [z2]))
    by reflexivity.
  rewrite (bind_ok _ _ _ _ _ Ha2).
  set (h2 := (h ++ [z]) ++ [z2]).
  set (h3 := h2 ++ [repeat zero (snd (ncols A, ncols A))]).
  assert (Hw : h3 !! length h = Some z).
  { unfold h3, h2. rewrite !lookup_app_l
      by (rewrite ?length_app; simpl; lia).
    apply lookup_snoc. }
  assert (Hv : h3 !! length h2 = Some z) by apply lookup_snoc.
  assert (Hmv : lr_precond_gram_mv A R (length h) (length (h ++ [z]))
                  (length h2) h3
                = (Raise LinAlgError, <[length h := z]> h3)).
  { unfold lr_precond_gram_mv.
    rewrite (bind_ok _ _ _ _ _
               (np_copyto_ok h3 _ _ z z Hw Hv eq_refl)).
    apply bind_raise.
    apply solve_triangular_singular_LinAlgError with (x := z);
      try assumption; try congruence; try discriminate.
    apply list_lookup_insert_eq. eapply lookup_lt_Some. exact Hw. }
  eexists. apply bind_raise.
  apply LinearOperator_new_raise. exact Hmv.
Qed.

End Singular.

Variable lsqr_impl : solver F.
Variable cg_impl : solver F.

(** C8.  Let [R] have an exact zero on its diagonal.  Then the
    triangular solve with [R] raises, whatever the other arguments, and
    writes nothing; on well-shaped (and, under [check_finite], finite)
    arguments what it raises is the solver's singular-matrix error.
    Hence every application of a closure of [a_times_inv_r] or
    [lr_precond_gram] raises, both constructors raise (they probe the
    forward closure), and [upper_tri_precond_lsqr] and
    [upper_tri_precond_cg] raise without having called their solver;
    with matching shapes of [A] and [R] all four raise the
    singular-matrix error.  Nothing is caught or retried. *)
Theorem singular_preconditioner_raises (A R : ndarray2 F) (i : nat) :
  i < nrows R -> is_zero (entry R i i) = true ->
  (forall b t cf ov h,
     exists e, solve_triangular R b t cf ov h = (Raise e, h)) /\
  (forall b t cf ov h x,
     h !! b = Some x -> nrows R = ncols R -> nrows R = length x ->
     (cf = true -> all_finite_mat R && all_finite_vec x = true) ->
     solve_triangular R b t cf ov h = (Raise LinAlgError, h)) /\
  (forall work work2 vec,
     fails (a_times_inv_r_mv A R work vec) /\
     fails (a_times_inv_r_rmv A R work vec) /\
     fails (lr_precond_gram_mv A R work work2 vec)) /\
  (forall h,
     (exists e h', a_times_inv_r A R h = (Raise e, h')) /\
     (exists e h', lr_precond_gram A R h = (Raise e, h')) /\
     (nrows R = ncols R -> nrows R = ncols A ->
      (exists h', a_times_inv_r A R h = (Raise LinAlgError, h')) /\
      (exists h', lr_precond_gram A R h = (Raise LinAlgError, h')))) /\
  (forall b tol iter_lim x0 h log,
     (exists e h',
        upper_tri_precond_lsqr lsqr_impl A b R tol iter_lim x0 (h, log)
        = (Raise e, (h', log))) /\
     (exists e h',
        upper_tri_precond_cg cg_impl A b R tol iter_lim x0 (h, log)
        = (Raise e, (h', log))) /\
     (nrows R = ncols R -> nrows R = ncols A ->
      (exists h',
         upper_tri_precond_lsqr lsqr_impl A b R tol iter_lim x0 (h, log)
         = (Raise LinAlgError, (h', log))) /\
      (exists h',
         upper_tri_precond_cg cg_impl A b R tol iter_lim x0 (h, log)
         = (Raise LinAlgError, (h', log))))).
Proof.
  intros Hi Hz.
  pose proof (zero_on_diagonal_true R i Hi Hz) as Hsing.
  split; [|split; [|split; [|split]]].
  - intros b t cf ov h. apply solve_triangular_singular. exact Hsing.
  - intros b t cf ov h x Hb Hsq Hlen Hfin.
    apply solve_triangular_singular_LinAlgError with (x := x); assumption.
  - intros work work2 vec. split; [|split].
    + apply fails_a_times_inv_r_mv. exact Hsing.
    + apply fails_a_times_inv_r_rmv. exact Hsing.
    + apply fails_lr_precond_gram_mv. exact Hsing.
  - intros h. split; [|split].
    + apply fails_a_times_inv_r. exact Hsing.
    + apply fails_lr_precond_gram. exact Hsing.
    + intros Hsq Hm. split.
      * apply a_times_inv_r_singular; assumption.
      * apply lr_precond_gram_singular; assumption.
  - intros b tol iter_lim x0 h log. split; [|split].
    + destruct (fails_a_times_inv_r R Hsing A h) as (e & h' & Hrun).
      exists e, h'. unfold upper_tri_precond_lsqr.
      apply bind_raise, lift_raise. exact Hrun.
    + destruct (fails_lr_precond_gram R Hsing A h) as (e & h' & Hrun).
      exists e, h'. unfold upper_tri_precond_cg.
      apply bind_raise, lift_raise. exact Hrun.
    + intros Hsq Hm. split.
      * destruct (a_times_inv_r_singular R Hsing A h Hsq Hm) as (h' & Hrun).
        exists h'. unfold upper_tri_precond_lsqr.
        apply bind_raise, lift_raise. exact Hrun.
      * destruct (lr_precond_gram_singular R Hsing A h Hsq Hm)
          as (h' & Hrun).
        exists h'. unfold upper_tri_precond_cg.
        apply bind_raise, lift_raise. exact Hrun.
Qed.

End Errors.

(** ** Shapes that do not fit *)

Section Shapes.
Context {F : Type} `{Scalar F}.

Implicit Types (h : heap F) (A R N : ndarray2 F).
Implicit Types (log : list (solver_call F)).





Variable lsqr_impl : solver F.
Variable cg_impl : solver F.






End Shapes.

(** ** More on the operators *)

Section OperatorValues.
Context {F : Type} `{Scalar F}.

Implicit Types (h : heap F) (A R N : ndarray2 F).

(** [op.matvec] and [op.rmatvec] of the operator of [a_times_inv_r]. *)
Lemma a_times_inv_r_op_matvec A R work v h x :
  scratch h work (ncols A) -> h !! v = Some x -> length x = ncols A ->
  nrows R = ncols R -> nrows R = ncols A -> zero_on_diagonal R = false ->
  matvec (a_times_inv_r_op A R work) v h
  = (Ok (length h), <[work := trsv R NoTrans x]> h ++ [forward_val A R x]).
Proof.
  intros Hs Hv Hx Hsq Hm Hdiag.
  assert (Hacc : accepted R x false)
    by (repeat split; try assumption; [discriminate | congruence]).
  eapply matvec_ok; simpl.
  - exact Hv.
  - exact Hx.
  - apply a_times_inv_r_mv_ok; assumption.
  - apply list_lookup_middle. rewrite length_insert. reflexivity.
  - apply length_matvec_val.
Qed.

Lemma a_times_inv_r_op_rmatvec A R work v h x :
  scratch h work (ncols A) -> h !! v = Some x -> length x = nrows A ->
  nrows R = ncols R -> nrows R = ncols A -> zero_on_diagonal R = false ->
  rmatvec (a_times_inv_r_op A R work) v h
  = (Ok (length h),
     <[work := matvec_val (transpose A) x]> h ++ [adjoint_val A R x]).
Proof.
  intros Hs Hv Hx Hsq Hm Hdiag.
  assert (Hg : length (matvec_val (transpose A) x) = ncols A)
    by apply length_matvec_val.
  assert (Hacc : accepted R (matvec_val (transpose A) x) false)
    by (repeat split; try assumption; [discriminate | congruence]).
  eapply rmatvec_ok; simpl.
  - exact Hv.
  - exact Hx.
  - apply a_times_inv_r_rmv_ok; assumption.
  - apply list_lookup_middle. rewrite length_insert. reflexivity.
  - unfold adjoint_val. rewrite length_trsv. exact Hg.
Qed.

(** The closures of [pinv_precond_lsqr] on well-shaped input. *)
Lemma pinv_precond_lsqr_mv_ok A N work vec h x :
  scratch h work (ncols A) -> h !! vec = Some x -> length x = ncols N ->
  nrows N = ncols A ->
  pinv_precond_lsqr_mv A N work vec h
  = (Ok (length h),
     <[work := matvec_val N x]> h ++ [matvec_val A (matvec_val N x)]).
Proof.
  intros Hs Hvec Hx Hshape. pose proof (scratch_lt _ _ _ Hs) as Hlt.
  destruct Hs as (buf & Hw & Hbuf).
  unfold pinv_precond_lsqr_mv.
  rewrite (bind_ok _ _ _ _ _
             (np_dot_out_ok h N vec work x buf Hvec Hw Hx
                (eq_trans Hbuf (eq_sym Hshape)))).
  assert (Hw' : <[work := matvec_val N x]> h !! work = Some (matvec_val N x))
    by (apply list_lookup_insert_eq; exact Hlt).
  rewrite (matmul_ok _ A work _ Hw')
    by (rewrite length_matvec_val; exact Hshape).
  rewrite length_insert. reflexivity.
Qed.

Lemma pinv_precond_lsqr_rmv_ok A N work vec h x :
  scratch h work (ncols A) -> h !! vec = Some x -> length x = nrows A ->
  nrows N = ncols A ->
  pinv_precond_lsqr_rmv A N work vec h
  = (Ok (length h),
     <[work := matvec_val (transpose A) x]> h
       ++ [matvec_val (transpose N) (matvec_val (transpose A) x)]).
Proof.
  intros Hs Hvec Hx Hshape. pose proof (scratch_lt _ _ _ Hs) as Hlt.
  destruct Hs as (buf & Hw & Hbuf).
  unfold pinv_precond_lsqr_rmv.
  rewrite (bind_ok _ _ _ _ _
             (np_dot_out_ok h (transpose A) vec work x buf Hvec Hw Hx Hbuf)).
  assert (Hw' : <[work := matvec_val (transpose A) x]> h !! work
                = Some (matvec_val (transpose A) x))
    by (apply list_lookup_insert_eq; exact Hlt).
  rewrite (matmul_ok _ (transpose N) work _ Hw')
    by (rewrite length_matvec_val; simpl; congruence).
  rewrite length_insert. reflexivity.
Qed.

(** [op.matvec] of the operator of [lr_precond_gram]. *)
Lemma lr_precond_gram_op_matvec A R work1 work2 v h x :
  nrows R = ncols R -> nrows R = ncols A -> zero_on_diagonal R = false ->
  scratch h work1 (ncols A) -> scratch h work2 (nrows A) -> work1 <> work2 ->
  h !! v = Some x -> length x = ncols A ->
  exists h2,
    matvec (lr_precond_gram_op A R work1 work2) v h = (Ok (length h), h2) /\
    h2 !! length h = Some (gram_val A R x).
Proof.
  intros Hsq Hm Hdiag Hs1 Hs2 Hne Hv Hx.
  destruct (lr_precond_gram_mv_ok A R work1 work2 v h x Hs1 Hs2 Hne Hv Hx
              Hsq Hm Hdiag) as (h2 & Hmv & Hres & _ & _).
  exists h2. split; [|exact Hres].
  eapply matvec_ok; simpl; eauto.
  unfold gram_val. rewrite length_trsv. apply length_matvec_val.
Qed.

(** X3.  The operator of [lr_precond_gram] is the adjoint of the operator
    of [a_times_inv_r] applied after its forward map (the docstring's
    [(A @ inv(R)).T @ (A @ inv(R))]): applying the Gram operator to an
    array holding [x] returns an array with the same contents as applying
    [matvec] of the operator of [a_times_inv_r] to [x] and then [rmatvec]
    of that same operator to the result, although the two applications
    share one scratch buffer. *)
Theorem lr_precond_gram_is_composition A R work1 work2 work h k v v' x :
  nrows R = ncols R -> nrows R = ncols A -> zero_on_diagonal R = false ->
  scratch h work1 (ncols A) -> scratch h work2 (nrows A) -> work1 <> work2 ->
  scratch k work (ncols A) ->
  h !! v = Some x -> k !! v' = Some x -> length x = ncols A ->
  exists y h2 k2 k3,
    matvec (lr_precond_gram_op A R work1 work2) v h = (Ok (length h), h2) /\
    h2 !! length h = Some y /\
    matvec (a_times_inv_r_op A R work) v' k = (Ok (length k), k2) /\
    rmatvec (a_times_inv_r_op A R work) (length k) k2
    = (Ok (length k2), k3) /\
    k3 !! length k2 = Some y.
Proof.
  intros Hsq Hm Hdiag Hs1 Hs2 Hne Hsk Hv Hv' Hx.
  destruct (lr_precond_gram_op_matvec A R work1 work2 v h x Hsq Hm Hdiag
              Hs1 Hs2 Hne Hv Hx) as (h2 & Hmv & Hres).
  pose proof (a_times_inv_r_op_matvec A R work v' k x Hsk Hv' Hx Hsq Hm Hdiag)
    as Hfwd.
  set (k2 := <[work := trsv R NoTrans x]> k ++ [forward_val A R x]) in *.
  assert (Hsk2 : scratch k2 work (ncols A)).
  { unfold k2. apply scratch_app, scratch_insert; [exact Hsk|].
    rewrite length_trsv. exact Hx. }
  assert (Hk2 : k2 !! length k = Some (forward_val A R x)).
  { unfold k2. apply list_lookup_middle. rewrite length_insert.
    reflexivity. }
  pose proof (a_times_inv_r_op_rmatvec A R work (length k) k2 _ Hsk2 Hk2
                (length_matvec_val _ _) Hsq Hm Hdiag) as Hadj.
  eexists (gram_val A R x), h2, k2, _.
  split; [exact Hmv|]. split; [exact Hres|]. split; [exact Hfwd|].
  split; [exact Hadj|].
  apply list_lookup_middle. rewrite length_insert. reflexivity.
Qed.

End OperatorValues.

Section OperatorAdjoints.
Context {F : Type} `{ExactScalar F}.

Implicit Types (h : heap F) (A R N : ndarray2 F).

(** [<A R^-1 v, u> = <v, R^-T A^T u>]. *)
Lemma forward_adjoint_val A R (v u : list F) :
  nrows R = ncols A -> ncols R = ncols A ->
  upper_triangular R -> nonsingular_diag R ->
  length v = ncols A ->
  dot (forward_val A R v) u = dot v (adjoint_val A R u).
Proof.
  intros Hn Hm Hup Hdiag Hv. unfold forward_val, adjoint_val.
  set (w := trsv R NoTrans v). set (g := matvec_val (transpose A) u).
  assert (Hw : matvec_val R w = v)
    by (apply back_subst_solves; first [assumption | congruence]).
  assert (Hlw : length w = ncols A)
    by (unfold w; rewrite length_trsv; exact Hv).
  assert (Hg : length g = ncols A) by apply length_matvec_val.
  assert (Hy : matvec_val (transpose R) (trsv R Trans g) = g)
    by (apply forward_subst_solves; first [assumption | congruence]).
  rewrite dot_adjoint by exact Hlw. fold g.
  rewrite <- Hw at 1. rewrite (dot_adjoint R w) by congruence.
  rewrite Hy. reflexivity.
Qed.

(** X2.  In the operator of [a_times_inv_r], [rmatvec] is the adjoint of
    [matvec] for the inner product: for [v] of length m and [u] of length
    n, [<matvec v, u> = <v, rmatvec u>] ([R] nonsingular upper
    triangular of order m). *)
Theorem a_times_inv_r_adjoint_consistent A R work h pv pu v u :
  nrows R = ncols A -> ncols R = ncols A ->
  upper_triangular R -> nonsingular_diag R ->
  scratch h work (ncols A) ->
  h !! pv = Some v -> length v = ncols A ->
  h !! pu = Some u -> length u = nrows A ->
  exists yv yu h2 h3,
    matvec (a_times_inv_r_op A R work) pv h = (Ok (length h), h2) /\
    h2 !! length h = Some yv /\
    rmatvec (a_times_inv_r_op A R work) pu h = (Ok (length h), h3) /\
    h3 !! length h = Some yu /\
    dot yv u = dot v yu.
Proof.
  intros Hn Hm Hup Hdiag Hs Hpv Hv Hpu Hu.
  assert (Hsq : nrows R = ncols R) by congruence.
  pose proof (zero_on_diagonal_false R Hdiag) as Hz.
  eexists (forward_val A R v), (adjoint_val A R u), _, _.
  split; [apply (a_times_inv_r_op_matvec A R work pv h v); assumption|].
  split; [apply list_lookup_middle; rewrite length_insert; reflexivity|].
  split; [apply (a_times_inv_r_op_rmatvec A R work pu h u); assumption|].
  split; [apply list_lookup_middle; rewrite length_insert; reflexivity|].
  apply forward_adjoint_val; assumption.
Qed.

(** X1.  The operator that [pinv_precond_lsqr] builds, for [A] of shape
    (n, m) and [N] of shape (m, k), has shape (n, k); its [matvec] maps a
    vector [v] of length k to a new array holding [A (N v)], its
    [rmatvec] maps a vector [u] of length n to a new array holding
    [N^T (A^T u)], and the two are adjoint:
    [<A (N v), u> = <v, N^T (A^T u)>]. *)
Theorem pinv_precond_lsqr_operator A N work h pv pu v u :
  nrows N = ncols A ->
  scratch h work (ncols A) ->
  h !! pv = Some v -> length v = ncols N ->
  h !! pu = Some u -> length u = nrows A ->
  op_shape (pinv_precond_lsqr_op A N work) = (nrows A, ncols N) /\
  exists h2 h3,
    matvec (pinv_precond_lsqr_op A N work) pv h = (Ok (length h), h2) /\
    h2 !! length h = Some (matvec_val A (matvec_val N v)) /\
    scratch h2 work (ncols A) /\
    rmatvec (pinv_precond_lsqr_op A N work) pu h = (Ok (length h), h3) /\
    h3 !! length h
    = Some (matvec_val (transpose N) (matvec_val (transpose A) u)) /\
    scratch h3 work (ncols A) /\
    dot (matvec_val A (matvec_val N v)) u
    = dot v (matvec_val (transpose N) (matvec_val (transpose A) u)).
Proof.
  intros Hshape Hs Hpv Hv Hpu Hu. split; [reflexivity|].
  pose proof (pinv_precond_lsqr_mv_ok A N work pv h v Hs Hpv Hv Hshape) as Hmv.
  pose proof (pinv_precond_lsqr_rmv_ok A N work pu h u Hs Hpu Hu Hshape)
    as Hrmv.
  eexists _, _.
  split; [|split; [|split; [|split; [|split; [|split]]]]].
  - eapply matvec_ok; simpl; [exact Hpv | exact Hv | exact Hmv | |].
    + apply list_lookup_middle. rewrite length_insert. reflexivity.
    + apply length_matvec_val.
  - apply list_lookup_middle. rewrite length_insert. reflexivity.
  - apply scratch_app, scratch_insert; [exact Hs|].
    rewrite length_matvec_val. exact Hshape.
  - eapply rmatvec_ok; simpl; [exact Hpu | exact Hu | exact Hrmv | |].
    + apply list_lookup_middle. rewrite length_insert. reflexivity.
    + apply length_matvec_val.
  - apply list_lookup_middle. rewrite length_insert. reflexivity.
  - apply scratch_app, scratch_insert; [exact Hs|].
    apply length_matvec_val.
  - rewrite dot_adjoint by (rewrite length_matvec_val; exact Hshape).
    rewrite dot_adjoint by exact Hv. reflexivity.
Qed.

(** X4.  The quadratic form of the operator of [lr_precond_gram] is a
    sum of squares: applied to an array holding [u], it returns an array
    [y] with [<y, u> = <z, z>] for [z = A R^-1 u], which is what makes
    the system handed to CG positive semidefinite. *)
Theorem gram_quadratic_form A R work1 work2 h pu (u : list F) :
  nrows R = ncols A -> ncols R = ncols A ->
  upper_triangular R -> nonsingular_diag R ->
  scratch h work1 (ncols A) -> scratch h work2 (nrows A) -> work1 <> work2 ->
  h !! pu = Some u -> length u = ncols A ->
  exists y h2,
    matvec (lr_precond_gram_op A R work1 work2) pu h = (Ok (length h), h2) /\
    h2 !! length h = Some y /\
    dot y u = dot (forward_val A R u) (forward_val A R u).
Proof.
  intros Hn Hm Hup Hdiag Hs1 Hs2 Hne Hpu Hu.
  assert (Hsq : nrows R = ncols R) by congruence.
  pose proof (zero_on_diagonal_false R Hdiag) as Hz.
  destruct (lr_precond_gram_op_matvec A R work1 work2 pu h u Hsq Hn Hz
              Hs1 Hs2 Hne Hpu Hu) as (h2 & Hmv & Hres).
  exists (gram_val A R u), h2. split; [exact Hmv|]. split; [exact Hres|].
  change (gram_val A R u) with (adjoint_val A R (forward_val A R u)).
  assert (Hlen : length (adjoint_val A R (forward_val A R u)) = length u).
  { unfold adjoint_val. rewrite length_trsv, length_matvec_val.
    simpl. congruence. }
  rewrite dot_comm by exact Hlen.
  symmetry. apply forward_adjoint_val; assumption.
Qed.

End OperatorAdjoints.

(** ** More on the entry points *)

Section MonadMore.
Context {S X Y Z : Type}.

Lemma bind_assoc (c : SE S X) (k1 : X -> SE S Y) (k2 : Y -> SE S Z) (s : S) :
  bind (bind c k1) k2 s = bind c (fun a => bind (k1 a) k2) s.
Proof.
  unfold bind. destruct (c s) as [[a|e] s']; reflexivity.
Qed.

End MonadMore.

Section EntryCases.
Context {F : Type} `{Scalar F}.

Implicit Types (h : heap F) (A R N : ndarray2 F).
Implicit Types (log : list (solver_call F)).

(** The run of a solver call followed by a continuation. *)
Lemma call_then_run {B} rt (impl : solver F) op b atol btol it y0
    (k : SolverResult F -> EM F B) h log :
  bind (call_solver rt impl op b atol btol it y0) k (h, log)
  = match impl op b atol btol it y0 h with
    | (Ok res, hs) =>
        k res (hs, log ++ [recorded rt op b atol btol it y0 h])
    | (Raise e, hs) =>
        (Raise e, (hs, log ++ [recorded rt op b atol btol it y0 h]))
    end.
Proof.
  unfold bind. rewrite call_solver_run.
  destruct (impl op b atol btol it y0 h) as [[res|e] hs]; reflexivity.
Qed.

(** Computing the initial guess [(R @ x0).ravel()] writes to no array
    that exists, also when it raises. *)
Lemma guess_raised_keeps R (p : ref) h o h' :
  bind (matmul R p) (fun y => ravel y) h = (o, h') -> modifies [] h h'.
Proof.
  intros Hrun.
  pose proof (touches_bind [] (matmul R p) (fun y => ravel y)
                (touches_matmul [] R p)
                (fun y => touches_ret [] y) h) as Hfr.
  rewrite Hrun in Hfr. exact Hfr.
Qed.

Variable lsqr_impl : solver F.
Variable cg_impl : solver F.

(** [upper_tri_precond_lsqr] either raises before LSQR is called, or is
    the call of LSQR followed by the back-transformation, started in a
    store that keeps every array the caller had. *)
Lemma upper_tri_precond_lsqr_cases A b R tol it x0 h log :
  (exists e h',
     upper_tri_precond_lsqr lsqr_impl A b R tol it x0 (h, log)
     = (Raise e, (h', log)) /\ modifies [] h h') \/
  exists y0 hc,
    upper_tri_precond_lsqr lsqr_impl A b R tol it x0 (h, log)
    = (result <- call_solver LSQR lsqr_impl
                   (a_times_inv_r_op A R (length h)) b tol tol it y0 ;;
       _ <- lift (solve_triangular R (sol result) NoTrans true true) ;;
       ret result) (hc, log) /\
    modifies [] h hc.
Proof.
  unfold upper_tri_precond_lsqr.
  pose proof (a_times_inv_r_frame A R h) as Hfr.
  destruct (a_times_inv_r A R h) as [[op|e] h1] eqn:Hop; simpl in Hfr;
    [|left; exists e, h1; split;
      [apply bind_raise, lift_raise; exact Hop | exact Hfr]].
  rewrite (bind_ok _ _ _ _ _ (lift_ok _ _ log _ _ Hop)).
  apply a_times_inv_r_inv in Hop as ->.
  destruct x0 as [p|].
  - rewrite bind_assoc.
    destruct (bind (matmul R p) (fun y => ravel y) h1) as [[y0|e] h2] eqn:Hy.
    + rewrite (bind_ok _ _ _ _ _ (lift_ok _ _ log _ _ Hy)).
      apply bind_inv_ok in Hy as (y & h2' & Hmm & Hrav).
      inversion Hrav; subst y0 h2'; clear Hrav.
      apply matmul_inv in Hmm as (xv & Hp & Hxv & -> & ->).
      right. exists (Some (length h1)), (h1 ++ [matvec_val R xv]).
      split; [reflexivity|].
      eapply modifies_trans; [exact Hfr | apply modifies_app].
    + left. exists e, h2. split;
        [apply bind_raise, lift_raise; exact Hy|].
      eapply modifies_trans; [exact Hfr|].
      apply (guess_raised_keeps R p h1 _ h2 Hy).
  - right. exists None, h1. split; [reflexivity | exact Hfr].
Qed.

(** The same for [upper_tri_precond_cg]; the right-hand side of the call
    is a new array. *)
Lemma upper_tri_precond_cg_cases A b R tol it x0 h log :
  (exists e h',
     upper_tri_precond_cg cg_impl A b R tol it x0 (h, log)
     = (Raise e, (h', log)) /\ modifies [] h h') \/
  exists y0 hc bp,
    upper_tri_precond_cg cg_impl A b R tol it x0 (h, log)
    = (result <- call_solver CG cg_impl
                   (lr_precond_gram_op A R (length h) (S (length h)))
                   bp tol tol it y0 ;;
       _ <- lift (solve_triangular R (sol result) NoTrans true true) ;;
       ret result) (hc, log) /\
    modifies [] h hc /\ length h <= bp.
Proof.
  unfold upper_tri_precond_cg.
  pose proof (lr_precond_gram_frame A R h) as Hfr.
  destruct (lr_precond_gram A R h) as [[op|e] h1] eqn:Hop; simpl in Hfr;
    [|left; exists e, h1; split;
      [apply bind_raise, lift_raise; exact Hop | exact Hfr]].
  rewrite (bind_ok _ _ _ _ _ (lift_ok _ _ log _ _ Hop)).
  apply lr_precond_gram_inv in Hop as ->.
  pose proof (touches_solve_triangular [] R b Trans false false
                ltac:(discriminate) h1) as Hfrb.
  destruct (solve_triangular R b Trans false false h1) as [[bp|e] h2] eqn:Hbp;
    simpl in Hfrb;
    [|left; exists e, h2; split;
      [apply bind_raise, lift_raise; exact Hbp
      |eapply modifies_trans; [exact Hfr | exact Hfrb]]].
  rewrite (bind_ok _ _ _ _ _ (lift_ok _ _ log _ _ Hbp)).
  apply solve_triangular_inv in Hbp as (bv & Hb & Hacc & -> & ->).
  assert (Hfr2 : modifies [] h (h1 ++ [trsv R Trans bv]))
    by (eapply modifies_trans; [exact Hfr | apply modifies_app]).
  assert (Hle : length h <= length h1) by (destruct Hfr; assumption).
  destruct x0 as [p|].
  - rewrite bind_assoc.
    destruct (bind (matmul R p) (fun y => ravel y) (h1 ++ [trsv R Trans bv]))
      as [[y0|e] h3] eqn:Hy.
    + rewrite (bind_ok _ _ _ _ _ (lift_ok _ _ log _ _ Hy)).
      apply bind_inv_ok in Hy as (y & h3' & Hmm & Hrav).
      inversion Hrav; subst y0 h3'; clear Hrav.
      apply matmul_inv in Hmm as (xv & Hp & Hxv & -> & ->).
      right. eexists _, _, (length h1).
      split; [reflexivity|]. split; [|exact Hle].
      eapply modifies_trans; [exact Hfr2 | apply modifies_app].
    + left. exists e, h3. split;
        [apply bind_raise, lift_raise; exact Hy|].
      eapply modifies_trans; [exact Hfr2|].
      apply (guess_raised_keeps R p _ _ h3 Hy).
  - right. exists None, (h1 ++ [trsv R Trans bv]), (length h1).
    split; [reflexivity|]. split; [exact Hfr2 | exact Hle].
Qed.

(** The same for [pinv_precond_lsqr]. *)
Lemma pinv_precond_lsqr_cases A b N tol it h log :
  (exists e h',
     pinv_precond_lsqr lsqr_impl A b N tol it (h, log)
     = (Raise e, (h', log)) /\ modifies [] h h') \/
  exists hc,
    pinv_precond_lsqr lsqr_impl A b N tol it (h, log)
    = (result <- call_solver LSQR lsqr_impl
                   (pinv_precond_lsqr_op A N (length h)) b tol tol it None ;;
       x <- lift (matmul N (sol result)) ;;
       ret {| sol := x; rest := rest result |}) (hc, log) /\
    modifies [] h hc.
Proof.
  unfold pinv_precond_lsqr, np_zeros.
  assert (Halloc : alloc (repeat zero (ncols A)) h
                   = (Ok (length h), h ++ [repeat zero (ncols A)]))
    by reflexivity.
  rewrite (bind_ok _ _ _ _ _ (lift_ok _ _ log _ _ Halloc)).
  set (h0 := h ++ [repeat zero (ncols A)]).
  pose proof (touches_LinearOperator_new [length h] (nrows A, ncols N)
                (pinv_precond_lsqr_mv A N (length h))
                (pinv_precond_lsqr_rmv A N (length h))
                (touches_pinv_precond_lsqr_mv A N (length h)) h0) as Hnew.
  destruct (LinearOperator_new _ _ _ h0) as [[op|e] h1] eqn:Hop;
    simpl in Hnew.
  - rewrite (bind_ok _ _ _ _ _ (lift_ok _ _ log _ _ Hop)).
    apply LinearOperator_new_inv in Hop as ->.
    right. exists h1. split; [reflexivity|].
    eapply modifies_fresh; [apply (modifies_app [] h) | exact Hnew |].
    intros w [<-|[]]. right. lia.
  - left. exists e, h1. split; [apply bind_raise, lift_raise; exact Hop|].
    eapply modifies_fresh; [apply (modifies_app [] h) | exact Hnew |].
    intros w [<-|[]]. right. lia.
Qed.

(** X5.  Whatever call an entry point makes to its solver, it passes the
    operator of the documented shape, the tolerance [tol] as both [atol]
    and [btol] and the iteration limit [iter_lim] unchanged;
    [upper_tri_precond_lsqr] and [pinv_precond_lsqr] pass the caller's [b]
    itself, [pinv_precond_lsqr] passes no initial guess, and the
    right-hand side that [upper_tri_precond_cg] passes is an array that
    did not exist at entry.  In the store handed to the solver every
    array the caller had holds what it held at entry. *)
Theorem solver_call_arguments A b R N tol iter_lim x0 h log :
  let described (run : outcome (SolverResult F) * state F)
        (rt : routine) (shp : nat * nat) (rhs_ok : ref -> Prop)
        (x0_ok : option ref -> Prop) : Prop :=
    snd (snd run) = log \/
    exists call,
      snd (snd run) = log ++ [call] /\
      sc_routine call = rt /\ sc_shape call = shp /\
      rhs_ok (sc_rhs call) /\ x0_ok (sc_x0 call) /\
      sc_atol call = tol /\ sc_btol call = tol /\
      sc_iter_lim call = iter_lim /\
      forall r x, h !! r = Some x -> sc_heap call !! r = Some x in
  described (upper_tri_precond_lsqr lsqr_impl A b R tol iter_lim x0 (h, log))
    LSQR (nrows A, ncols A) (fun rhs => rhs = b) (fun _ => True) /\
  described (pinv_precond_lsqr lsqr_impl A b N tol iter_lim (h, log))
    LSQR (nrows A, ncols N) (fun rhs => rhs = b) (fun y0 => y0 = None) /\
  described (upper_tri_precond_cg cg_impl A b R tol iter_lim x0 (h, log))
    CG (ncols A, ncols A) (fun rhs => h !! rhs = None) (fun _ => True).
Proof.
  intros described. unfold described. split; [|split].
  - destruct (upper_tri_precond_lsqr_cases A b R tol iter_lim x0 h log)
      as [(e & h' & -> & _) | (y0 & hc & -> & Hfr)]; [left; reflexivity|].
    right. rewrite call_then_run.
    eexists (recorded LSQR _ b tol tol iter_lim y0 hc). split.
    + destruct (lsqr_impl _ b tol tol iter_lim y0 hc) as [[res|e] hs];
        [|reflexivity].
      unfold bind. rewrite lift_run.
      destruct (solve_triangular _ _ _ _ _ hs) as [[r|e] h']; reflexivity.
    + simpl. repeat split; try reflexivity.
      intros r x Hr. eapply modifies_lookup; [exact Hfr | exact Hr |].
      apply in_nil.
  - destruct (pinv_precond_lsqr_cases A b N tol iter_lim h log)
      as [(e & h' & -> & _) | (hc & -> & Hfr)]; [left; reflexivity|].
    right. rewrite call_then_run.
    eexists (recorded LSQR _ b tol tol iter_lim None hc). split.
    + destruct (lsqr_impl _ b tol tol iter_lim None hc) as [[res|e] hs];
        [|reflexivity].
      unfold bind. rewrite lift_run.
      destruct (matmul _ _ hs) as [[r|e] h']; reflexivity.
    + simpl. repeat split; try reflexivity.
      intros r x Hr. eapply modifies_lookup; [exact Hfr | exact Hr |].
      apply in_nil.
  - destruct (upper_tri_precond_cg_cases A b R tol iter_lim x0 h log)
      as [(e & h' & -> & _) | (y0 & hc & bp & -> & Hfr & Hbp)];
      [left; reflexivity|].
    right. rewrite call_then_run.
    eexists (recorded CG _ bp tol tol iter_lim y0 hc). split.
    + destruct (cg_impl _ bp tol tol iter_lim y0 hc) as [[res|e] hs];
        [|reflexivity].
      unfold bind. rewrite lift_run.
      destruct (solve_triangular _ _ _ _ _ hs) as [[r|e] h']; reflexivity.
    + simpl. repeat split; try reflexivity.
      * apply lookup_ge_None. exact Hbp.
      * intros r x Hr. eapply modifies_lookup; [exact Hfr | exact Hr |].
        apply in_nil.
Qed.

(** X6.  An exception of the solver is not caught, and nothing runs
    after it.  An entry point either raises before it calls the solver,
    with no call recorded and every array the caller had as it was; or
    it makes one call, and if that call raises [e] and leaves the store
    [hs], the entry point raises that same [e] with exactly the store
    [hs]: no back-transformation is attempted and nothing is written. *)
Theorem solver_exception_propagates A b R N tol iter_lim x0 h log :
  let propagated (run : outcome (SolverResult F) * state F)
        (impl : solver F) (op : LinearOperator F) : Prop :=
    (exists e h', run = (Raise e, (h', log)) /\ modifies [] h h') \/
    exists call,
      snd (snd run) = log ++ [call] /\
      forall e hs,
        impl op (sc_rhs call) tol tol iter_lim (sc_x0 call) (sc_heap call)
        = (Raise e, hs) ->
        run = (Raise e, (hs, log ++ [call])) in
  propagated (upper_tri_precond_lsqr lsqr_impl A b R tol iter_lim x0 (h, log))
    lsqr_impl (a_times_inv_r_op A R (length h)) /\
  propagated (pinv_precond_lsqr lsqr_impl A b N tol iter_lim (h, log))
    lsqr_impl (pinv_precond_lsqr_op A N (length h)) /\
  propagated (upper_tri_precond_cg cg_impl A b R tol iter_lim x0 (h, log))
    cg_impl (lr_precond_gram_op A R (length h) (S (length h))).
Proof.
  intros propagated. unfold propagated. split; [|split].
  - destruct (upper_tri_precond_lsqr_cases A b R tol iter_lim x0 h log)
      as [Hpre | (y0 & hc & -> & _)]; [left; exact Hpre|].
    right. rewrite call_then_run.
    exists (recorded LSQR (a_times_inv_r_op A R (length h)) b tol tol
              iter_lim y0 hc). simpl.
    destruct (lsqr_impl _ b tol tol iter_lim y0 hc) as [[res|e'] hs'].
    + split; [|discriminate].
      unfold bind. rewrite lift_run.
      destruct (solve_triangular _ _ _ _ _ hs') as [[r|e] h']; reflexivity.
    + split; [reflexivity|].
      intros e hs Heq. inversion Heq; subst. reflexivity.
  - destruct (pinv_precond_lsqr_cases A b N tol iter_lim h log)
      as [Hpre | (hc & -> & _)]; [left; exact Hpre|].
    right. rewrite call_then_run.
    exists (recorded LSQR (pinv_precond_lsqr_op A N (length h)) b tol tol
              iter_lim None hc). simpl.
    destruct (lsqr_impl _ b tol tol iter_lim None hc) as [[res|e'] hs'].
    + split; [|discriminate].
      unfold bind. rewrite lift_run.
      destruct (matmul _ _ hs') as [[r|e] h']; reflexivity.
    + split; [reflexivity|].
      intros e hs Heq. inversion Heq; subst. reflexivity.
  - destruct (upper_tri_precond_cg_cases A b R tol iter_lim x0 h log)
      as [Hpre | (y0 & hc & bp & -> & _)]; [left; exact Hpre|].
    right. rewrite call_then_run.
    exists (recorded CG (lr_precond_gram_op A R (length h) (S (length h)))
              bp tol tol iter_lim y0 hc). simpl.
    destruct (cg_impl _ bp tol tol iter_lim y0 hc) as [[res|e'] hs'].
    + split; [|discriminate].
      unfold bind. rewrite lift_run.
      destruct (solve_triangular _ _ _ _ _ hs') as [[r|e] h']; reflexivity.
    + split; [reflexivity|].
      intros e hs Heq. inversion Heq; subst. reflexivity.
Qed.

End EntryCases.

(** ** The identity as preconditioner *)

Section BackTransform.
Context {F : Type} `{ExactScalar F}.

Implicit Types (h : heap F) (A R N : ndarray2 F).
Implicit Types (log : list (solver_call F)).

(** A run of the solver followed by the in-place solve that returned. *)
Lemma back_transform_inv rt (impl : solver F) op b tol it y0 R hc log
    res h' log' :
  (result <- call_solver rt impl op b tol tol it y0 ;;
   _ <- lift (solve_triangular R (sol result) NoTrans true true) ;;
   ret result) (hc, log) = (Ok res, (h', log')) ->
  exists hs y,
    impl op b tol tol it y0 hc = (Ok res, hs) /\
    log' = log ++ [recorded rt op b tol tol it y0 hc] /\
    hs !! sol res = Some y /\
    accepted R y true /\
    h' = <[sol res := trsv R NoTrans y]> hs.
Proof.
  rewrite call_then_run.
  destruct (impl op b tol tol it y0 hc) as [[result|e] hs] eqn:Himpl;
    [|discriminate].
  intros Hrun.
  apply bind_inv_ok in Hrun as (r & [h3 l3] & Hsolve & Hret).
  inversion Hret; subst result h3 l3; clear Hret.
  apply lift_inv_ok in Hsolve as [Hsolve Hlog]. simpl in Hsolve, Hlog.
  apply solve_triangular_inv in Hsolve as (y & Hy & Hacc & _ & ->).
  exists hs, y. auto.
Qed.

Variable lsqr_impl : solver F.

Lemma bigsum_delta (f : nat -> F) (m i : nat) :
  i < m ->
  bigsum (fun j => mul (if i =? j then one else zero) (f j)) 0 m = f i.
Proof.
  intros Hi. rewrite (bigsum_pick _ m i Hi).
  rewrite !bigsum_zero.
  - rewrite Nat.eqb_refl.
    pose proof scalar_field as Hf. destruct Hf as [Hr _ _ _].
    rewrite (Radd_0_l Hr), (Radd_comm Hr), (Radd_0_l Hr).
    apply (Rmul_1_l Hr).
  - intros j Hj. replace (i =? j) with false
      by (symmetry; apply Nat.eqb_neq; lia).
    pose proof scalar_field as Hf. destruct Hf as [Hr _ _ _].
    apply (Ring_theory.Rmul_0_l (Eqsth F)
             (Ring_theory.Eq_ext add mul opp) Hr).
  - intros j Hj. replace (i =? j) with false
      by (symmetry; apply Nat.eqb_neq; lia).
    pose proof scalar_field as Hf. destruct Hf as [Hr _ _ _].
    apply (Ring_theory.Rmul_0_l (Eqsth F)
             (Ring_theory.Eq_ext add mul opp) Hr).
Qed.

Lemma matvec_val_eye (m : nat) (x : list F) :
  length x = m -> matvec_val (eye m) x = x.
Proof.
  intros Hx. apply vec_ext.
  - rewrite length_matvec_val. simpl. congruence.
  - intros i Hi. rewrite length_matvec_val in Hi. simpl in Hi.
    rewrite vget_matvec_val by exact Hi. simpl.
    apply (bigsum_delta (fun j => vget x j) m i Hi).
Qed.

Lemma eye_upper (m : nat) : upper_triangular (eye m : ndarray2 F).
Proof.
  intros i j Hji Hi. simpl.
  replace (i =? j) with false by (symmetry; apply Nat.eqb_neq; lia).
  reflexivity.
Qed.

Lemma eye_diag (m : nat) : nonsingular_diag (eye m : ndarray2 F).
Proof.
  intros i Hi. simpl. rewrite Nat.eqb_refl.
  destruct (is_zero one) eqn:Hz; [|reflexivity].
  apply is_zero_spec in Hz.
  pose proof scalar_field as Hf. destruct Hf as [_ Hneq _ _].
  contradiction.
Qed.

Lemma trsv_eye_NoTrans (m : nat) (x : list F) :
  length x = m -> trsv (eye m) NoTrans x = x.
Proof.
  intros Hx. rewrite <- (matvec_val_eye m x Hx) at 1.
  apply back_subst_matvec;
    [reflexivity | apply eye_upper | apply eye_diag | exact Hx].
Qed.

Lemma trsv_eye_Trans (m : nat) (x : list F) :
  length x = m -> trsv (eye m) Trans x = x.
Proof.
  intros Hx.
  assert (Ht : matvec_val (transpose (eye m)) x = x).
  { apply vec_ext.
    - rewrite length_matvec_val. simpl. congruence.
    - intros i Hi. rewrite length_matvec_val in Hi. simpl in Hi.
      rewrite vget_matvec_val by exact Hi. simpl.
      rewrite (bigsum_ext _
                 (fun j => mul (if i =? j then one else zero) (vget x j)))
        by (intros j Hj; rewrite Nat.eqb_sym; reflexivity).
      apply (bigsum_delta (fun j => vget x j) m i Hi). }
  rewrite <- Ht at 1.
  apply forward_subst_matvec;
    [reflexivity | apply eye_upper | apply eye_diag | exact Hx].
Qed.

(** X10.  With the identity as preconditioner nothing is preconditioned:
    the operator of [a_times_inv_r A I] maps [v] to [A v] and [u] to
    [A^T u], and [upper_tri_precond_lsqr] returns the tuple and the store
    exactly as LSQR left them. *)
Theorem identity_preconditioner A work h pv pu v u :
  scratch h work (ncols A) ->
  h !! pv = Some v -> length v = ncols A ->
  h !! pu = Some u -> length u = nrows A ->
  (exists h2 h3,
     matvec (a_times_inv_r_op A (eye (ncols A)) work) pv h
     = (Ok (length h), h2) /\
     h2 !! length h = Some (matvec_val A v) /\
     rmatvec (a_times_inv_r_op A (eye (ncols A)) work) pu h
     = (Ok (length h), h3) /\
     h3 !! length h = Some (matvec_val (transpose A) u)) /\
  (forall b tol iter_lim x0 h0 log res h' log',
     upper_tri_precond_lsqr lsqr_impl A b (eye (ncols A)) tol iter_lim x0
       (h0, log) = (Ok res, (h', log')) ->
     exists call,
       log' = log ++ [call] /\
       lsqr_impl (a_times_inv_r_op A (eye (ncols A)) (length h0)) b tol tol
         iter_lim (sc_x0 call) (sc_heap call) = (Ok res, h')).
Proof.
  intros Hs Hpv Hv Hpu Hu.
  pose proof (zero_on_diagonal_false _ (eye_diag (ncols A))) as Hz.
  split.
  - pose proof (a_times_inv_r_op_matvec A (eye (ncols A)) work pv h v
                  Hs Hpv Hv eq_refl eq_refl Hz) as Hmv.
    pose proof (a_times_inv_r_op_rmatvec A (eye (ncols A)) work pu h u
                  Hs Hpu Hu eq_refl eq_refl Hz) as Hrmv.
    unfold forward_val in Hmv. unfold adjoint_val in Hrmv.
    rewrite trsv_eye_NoTrans in Hmv by exact Hv.
    rewrite trsv_eye_Trans in Hrmv by apply length_matvec_val.
    eexists _, _.
    split; [exact Hmv|].
    split; [apply list_lookup_middle; rewrite length_insert; reflexivity|].
    split; [exact Hrmv|].
    apply list_lookup_middle. rewrite length_insert. reflexivity.
  - intros b tol iter_lim x0 h0 log res h' log' Hrun.
    destruct (upper_tri_precond_lsqr_cases lsqr_impl A b (eye (ncols A)) tol
                iter_lim x0 h0 log)
      as [(e & h1 & Hraise & _) | (y0 & hc & Htail & _)].
    + rewrite Hraise in Hrun. discriminate.
    + rewrite Htail in Hrun.
      apply back_transform_inv in Hrun
        as (hs & y & Hcall & Hlog & Hy & Hacc & ->).
      exists (recorded LSQR (a_times_inv_r_op A (eye (ncols A)) (length h0)) b tol tol
                iter_lim y0 hc).
      split; [exact Hlog|].
      destruct Hacc as (_ & _ & Hlen & _).
      rewrite (trsv_eye_NoTrans (ncols A) y (eq_sym Hlen)).
      rewrite list_insert_id by exact Hy. exact Hcall.
Qed.

End BackTransform.

(** ** Results of earlier applications *)

Section Survival.
Context {F : Type} `{Scalar F}.

Implicit Types (h : heap F) (r : ref) (A R N : ndarray2 F).

Lemma touches_apply_op ws (op : LinearOperator F) a :
  (forall v, touches ws (matvec_impl op v)) ->
  (forall v, touches ws (rmatvec_impl op v)) ->
  touches ws (apply_op op a).
Proof.
  intros Hmv Hrmv. destruct a as [v|u]; simpl.
  - apply touches_matvec, Hmv.
  - apply touches_rmatvec, Hrmv.
Qed.

Lemma modifies_apply_all ws (op : LinearOperator F) l h :
  (forall v, touches ws (matvec_impl op v)) ->
  (forall v, touches ws (rmatvec_impl op v)) ->
  modifies ws h (apply_all op l h).
Proof.
  intros Hmv Hrmv. revert h.
  induction l as [|a l IH]; intros h; simpl.
  - apply modifies_refl.
  - eapply modifies_trans; [|apply IH].
    apply (touches_apply_op ws op a Hmv Hrmv).
Qed.

Lemma returns_fresh_apply_op (op : LinearOperator F) a :
  (forall v, returns_fresh (matvec_impl op v)) ->
  (forall v, returns_fresh (rmatvec_impl op v)) ->
  returns_fresh (apply_op op a).
Proof.
  intros Hmv Hrmv. destruct a as [v|u]; simpl.
  - apply returns_fresh_matvec, Hmv.
  - apply returns_fresh_rmatvec, Hrmv.
Qed.

Lemma result_survives ws (op : LinearOperator F) h a r h2 y later :
  (forall v, touches ws (matvec_impl op v)) ->
  (forall v, touches ws (rmatvec_impl op v)) ->
  (forall v, returns_fresh (matvec_impl op v)) ->
  (forall v, returns_fresh (rmatvec_impl op v)) ->
  (forall w, In w ws -> w < length h) ->
  apply_op op a h = (Ok r, h2) ->
  h2 !! r = Some y ->
  apply_all op later h2 !! r = Some y.
Proof.
  intros Hmv Hrmv Hfmv Hfrmv Hws Hrun Hy.
  pose proof (returns_fresh_apply_op op a Hfmv Hfrmv h r h2 Hrun) as Hr.
  eapply modifies_lookup;
    [apply (modifies_apply_all ws op later h2 Hmv Hrmv) | exact Hy |].
  intros Hin. apply Hws in Hin. lia.
Qed.

(** X9.  What an application returned is not overwritten by later
    applications.  Let the scratch of an operator of the module be
    arrays of the store [h]; an array returned by a forward or adjoint
    application in [h] holds the same values after any sequence of
    further applications of that operator, to whatever arguments and
    whether they return or raise. *)
Theorem earlier_results_survive A R N work work1 work2 h :
  work < length h -> work1 < length h -> work2 < length h ->
  let survives (op : LinearOperator F) :=
    forall a r h2 y later,
      apply_op op a h = (Ok r, h2) ->
      h2 !! r = Some y ->
      apply_all op later h2 !! r = Some y in
  survives (a_times_inv_r_op A R work) /\
  survives (pinv_precond_lsqr_op A N work) /\
  survives (lr_precond_gram_op A R work1 work2).
Proof.
  intros Hw Hw1 Hw2 survives. unfold survives.
  split; [|split]; intros a r h2 y later.
  - apply (result_survives [work]); simpl.
    + intros v. apply touches_a_times_inv_r_mv.
    + intros v. apply touches_a_times_inv_r_rmv.
    + intros v. apply returns_fresh_a_times_inv_r_mv.
    + intros v. apply returns_fresh_a_times_inv_r_rmv.
    + intros w [<-|[]]. exact Hw.
  - apply (result_survives [work]); simpl.
    + intros v. apply touches_pinv_precond_lsqr_mv.
    + intros v. apply touches_pinv_precond_lsqr_rmv.
    + intros v. apply returns_fresh_pinv_precond_lsqr_mv.
    + intros v. apply returns_fresh_pinv_precond_lsqr_rmv.
    + intros w [<-|[]]. exact Hw.
  - apply (result_survives [work1; work2]); simpl.
    + intros v. apply touches_lr_precond_gram_mv.
    + intros v. apply touches_lr_precond_gram_mv.
    + intros v. apply returns_fresh_lr_precond_gram_mv.
    + intros v. apply returns_fresh_lr_precond_gram_mv.
    + intros w [<-|[<-|[]]]; assumption.
Qed.

End Survival.

(** ** The development at a small instance *)

Section Demonstration.
Import Demo.

(** [R] is upper triangular. *)
Lemma R_upper : upper_triangular R.
Proof.
  intros i j Hji Hi. simpl in Hi.
  destruct i as [|[|i]]; [lia | | lia].
  destruct j as [|j]; [reflexivity | lia].
Qed.

(** The diagonal of [R] has no zero. *)
Lemma R_diag : nonsingular_diag R.
Proof.
  intros i Hi. simpl in Hi.
  destruct i as [|[|i]]; [reflexivity | reflexivity | lia].
Qed.

(** Forward application of [a_times_inv_r A R] to [[6, 9]]: the solve
    gives [[3/2, 3]] and the product [[3/2, 3, 9/2]]. *)
Example forward_apply :
  match a_times_inv_r A R h with
  | (Ok op, h1) =>
      match matvec op 0 h1 with
      | (Ok r, h2) => values (h2 !! r)
      | _ => None
      end
  | _ => None
  end = Some [3 # 2; 3 # 1; 9 # 2]%Q.
Proof. vm_compute. reflexivity. Qed.

(** Adjoint application to [[1, 2, 3]]: [A^T v = [4, 5]] and the
    transposed solve gives [[2, 1]]. *)
Example adjoint_apply :
  match a_times_inv_r A R h with
  | (Ok op, h1) =>
      match rmatvec op 1 h1 with
      | (Ok r, h2) => values (h2 !! r)
      | _ => None
      end
  | _ => None
  end = Some [2 # 1; 1 # 1]%Q.
Proof. vm_compute. reflexivity. Qed.

(** The Gram operator on [[6, 9]]. *)
Example gram_apply :
  match lr_precond_gram A R h with
  | (Ok op, h1) =>
      match matvec op 0 h1 with
      | (Ok r, h2) => values (h2 !! r)
      | _ => None
      end
  | _ => None
  end = Some [3 # 1; 3 # 2]%Q.
Proof. vm_compute. reflexivity. Qed.

(** [upper_tri_precond_lsqr] around the one-step solver: the solver's
    array (reference 6) holds [R^-1 [2, 1]] on return. *)
Example lsqr_in_place :
  match upper_tri_precond_lsqr one_adjoint_solver A 1 R tol 10 None
          (h, []) with
  | (Ok res, (h', _)) => (sol res, values (h' !! sol res))
  | _ => (0, None)
  end = (6, Some [5 # 6; 1 # 3]%Q).
Proof. vm_compute. reflexivity. Qed.

(** A singular [R] stops the construction with the solver's error. *)
Example singular_construction :
  fst (a_times_inv_r A R_singular h) = Raise LinAlgError.
Proof. vm_compute. reflexivity. Qed.

(** *** The theorems at this instance *)

(** Building an operator keeps the arrays that were in the store. *)
Lemma built_store_keeps (c : HM Qc (LinearOperator Qc)) (h0 h' : heap Qc)
    (op : LinearOperator Qc) (v : ref) (x : list Qc) :
  modifies [] h0 (snd (c h0)) -> c h0 = (Ok op, h') ->
  h0 !! v = Some x -> h' !! v = Some x.
Proof.
  intros Hfr Hrun Hv. rewrite Hrun in Hfr. simpl in Hfr.
  eapply modifies_lookup; [exact Hfr | exact Hv | apply in_nil].
Qed.

(** C1 at the instance: forward application to [[6, 9]] and adjoint
    application to [[1, 2, 3]]. *)
Lemma a_times_inv_r_correct_witness :
  exists op h' w h2 y h3,
    a_times_inv_r A R h = (Ok op, h') /\ op_shape op = (3, 2) /\
    matvec op 0 h' = (Ok (length h'), h2) /\
    matvec_val R w = [q 6; q 9] /\
    h2 !! length h' = Some (matvec_val A w) /\
    rmatvec op 1 h' = (Ok (length h'), h3) /\
    matvec_val (transpose R) y = matvec_val (transpose A) [q 1; q 2; q 3] /\
    h3 !! length h' = Some y.
Proof.
  destruct (a_times_inv_r_correct A R h eq_refl eq_refl R_upper R_diag)
    as (op & h' & Hrun & Hshape & Hs & Happ).
  destruct (Happ h' Hs) as [Hfwd Hadj].
  pose proof (a_times_inv_r_frame A R h) as Hfr.
  destruct (Hfwd 0 [q 6; q 9]
              (built_store_keeps _ h h' op 0 _ Hfr Hrun eq_refl) eq_refl)
    as (w & h2 & Hmv & _ & Hw & Hres & _).
  destruct (Hadj 1 [q 1; q 2; q 3]
              (built_store_keeps _ h h' op 1 _ Hfr Hrun eq_refl) eq_refl)
    as (y & h3 & Hrmv & _ & Hy & Hres' & _).
  exists op, h', w, h2, y, h3. repeat split; assumption.
Defined.

(** C2 at the instance. *)
Lemma lr_precond_gram_correct_witness :
  exists op h' y h2,
    lr_precond_gram A R h = (Ok op, h') /\ op_shape op = (2, 2) /\
    matvec op 0 h' = (Ok (length h'), h2) /\
    h2 !! length h' = Some y /\
    dot (gram_val A R [q 6; q 9]) [q 1; q 0]
    = dot [q 6; q 9] (gram_val A R [q 1; q 0]).
Proof.
  destruct (lr_precond_gram_correct A R h eq_refl eq_refl R_upper R_diag)
    as (op & h' & Hrun & Hshape & _ & _ & Hs1 & Hs2 & Happ & Hsym).
  pose proof (lr_precond_gram_frame A R h) as Hfr.
  destruct (Happ h' Hs1 Hs2 0 [q 6; q 9]
              (built_store_keeps _ h h' op 0 _ Hfr Hrun eq_refl) eq_refl)
    as (w & y & h2 & Hmv & _ & _ & _ & _ & _ & Hres & _).
  exists op, h', y, h2. split; [exact Hrun|]. split; [exact Hshape|].
  split; [exact Hmv|]. split; [exact Hres|].
  apply Hsym; reflexivity.
Defined.

(** C3 at the instance, with [x = [1, 2]] and the store holding [R x]. *)
Lemma a_times_inv_r_of_R_times_x_witness :
  exists op h' h2,
    a_times_inv_r A R [matvec_val R [q 1; q 2]] = (Ok op, h') /\
    matvec op 0 h' = (Ok (length h'), h2) /\
    h2 !! length h' = Some (matvec_val A [q 1; q 2]).
Proof.
  destruct (a_times_inv_r_of_R_times_x A R [matvec_val R [q 1; q 2]]
              eq_refl eq_refl R_upper R_diag)
    as (op & h' & Hrun & Hs & Happ).
  pose proof (a_times_inv_r_frame A R [matvec_val R [q 1; q 2]]) as Hfr.
  destruct (Happ h' 0 [q 1; q 2] Hs eq_refl
              (built_store_keeps _ _ h' op 0 _ Hfr Hrun eq_refl))
    as (h2 & Hmv & Hres).
  exists op, h', h2. repeat split; assumption.
Defined.

(** [R] has no zero on its diagonal. *)
Lemma R_no_zero : zero_on_diagonal R = false.
Proof. vm_compute. reflexivity. Qed.

(** C5 at the instance: with [x0] at reference 0 the solver is called. *)
Lemma initial_guess_passed_witness :
  snd (snd (upper_tri_precond_lsqr initial_iterate_solver A 1 R tol 10
              (Some 0) (h, []))) <> [].
Proof.
  pose proof (initial_guess_passed initial_iterate_solver
                initial_iterate_solver A 1 R tol 10 (Some 0) h []) as Hthm.
  cbv zeta in Hthm. destruct Hthm as (_ & _ & Hreach).
  assert (Hfits : guess_fits R (Some 0) h)
    by (exists [q 6; q 9]; split; reflexivity).
  destruct (Hreach eq_refl eq_refl R_no_zero Hfits) as [Hne _].
  exact Hne.
Defined.

(** C6 at the instance: with [b] at reference 0 the solver is called. *)
Lemma cg_right_hand_side_witness :
  snd (snd (upper_tri_precond_cg initial_iterate_solver A 0 R tol 10 None
              (h, []))) <> [].
Proof.
  pose proof (cg_right_hand_side initial_iterate_solver A 0 R tol 10 None
                h [] [q 6; q 9] eq_refl) as Hthm.
  cbv zeta in Hthm. destruct Hthm as (_ & Hreach).
  exact (Hreach eq_refl eq_refl R_no_zero I eq_refl).
Defined.

(** C7 at the instance, around the one-step solver. *)
Lemma pinv_precond_lsqr_result_witness :
  exists res' h' log' res hs y,
    pinv_precond_lsqr one_adjoint_solver A 1 N tol 10 (h, [])
    = (Ok res', (h', log')) /\
    hs !! sol res = Some y /\
    h' = hs ++ [matvec_val N y] /\
    rest res' = rest res /\
    h' !! sol res = Some y.
Proof.
  destruct (pinv_precond_lsqr one_adjoint_solver A 1 N tol 10 (h, []))
    as [[res'|e] [h' log']] eqn:Hrun.
  - destruct (pinv_precond_lsqr_result one_adjoint_solver A 1 N tol 10
                h [] res' h' log' Hrun)
      as (call & res & hs & y & _ & _ & _ & Hy & _ & Hh' & Hrest & _ & Hkeep
          & _).
    exists res', h', log', res, hs, y. auto.
  - vm_compute in Hrun. discriminate.
Defined.

(** C8 at the instance: the solve with the singular [R] raises. *)
Lemma singular_preconditioner_raises_witness :
  exists e,
    solve_triangular R_singular 0 NoTrans false true h = (Raise e, h).
Proof.
  assert (Hi : 1 < nrows R_singular) by (simpl; lia).
  assert (Hz : is_zero (entry R_singular 1 1) = true)
    by (vm_compute; reflexivity).
  destruct (singular_preconditioner_raises initial_iterate_solver
              initial_iterate_solver A R_singular 1 Hi Hz) as (Hsolve & _).
  apply Hsolve.
Defined.



(** C10 at the instance: with scratch at reference 2 the input at
    reference 0 is unchanged. *)
Lemma operators_preserve_input_witness :
  snd (matvec (a_times_inv_r_op A R 2) 0 h) !! 0 = Some [q 6; q 9].
Proof.
  destruct (operators_preserve_input A R N) as (_ & _ & Hop & _).
  destruct (Hop 2) as (Hmv & _).
  destruct (Hmv h 0) as (_ & Hin & _).
  apply Hin; [reflexivity|].
  intros [Heq|[]]. discriminate.
Defined.

(** The zero vector at reference 2 serves as scratch of length 2, the
    vector at reference 1 as scratch of length 3. *)
Lemma h_scratch_2 : scratch h 2 (ncols A).
Proof. exists [q 0; q 0]. split; reflexivity. Qed.

Lemma h_scratch_1 : scratch h 1 (nrows A).
Proof. exists [q 1; q 2; q 3]. split; reflexivity. Qed.

(** X1 at the instance: forward application to [[6, 9]]. *)
Lemma pinv_precond_lsqr_operator_witness :
  exists h2,
    matvec (pinv_precond_lsqr_op A N 2) 0 h = (Ok (length h), h2) /\
    h2 !! length h = Some (matvec_val A (matvec_val N [q 6; q 9])).
Proof.
  destruct (pinv_precond_lsqr_operator A N 2 h 0 1 [q 6; q 9]
              [q 1; q 2; q 3] eq_refl h_scratch_2 eq_refl eq_refl eq_refl
              eq_refl) as (_ & h2 & h3 & Hmv & Hres & _).
  exists h2. split; assumption.
Defined.

(** X2 at the instance, with [v = [6, 9]] and [u = [1, 2, 3]]. *)
Lemma a_times_inv_r_adjoint_consistent_witness :
  exists yv yu h2 h3,
    matvec (a_times_inv_r_op A R 2) 0 h = (Ok (length h), h2) /\
    h2 !! length h = Some yv /\
    rmatvec (a_times_inv_r_op A R 2) 1 h = (Ok (length h), h3) /\
    h3 !! length h = Some yu /\
    dot yv [q 1; q 2; q 3] = dot [q 6; q 9] yu.
Proof.
  exact (a_times_inv_r_adjoint_consistent A R 2 h 0 1 [q 6; q 9]
           [q 1; q 2; q 3] eq_refl eq_refl R_upper R_diag h_scratch_2
           eq_refl eq_refl eq_refl eq_refl).
Defined.

(** X3 at the instance: the Gram operator with scratch at references 2
    and 1, the operator of [a_times_inv_r] with scratch at reference 2. *)
Lemma lr_precond_gram_is_composition_witness :
  exists y h2 k2 k3,
    matvec (lr_precond_gram_op A R 2 1) 0 h = (Ok (length h), h2) /\
    h2 !! length h = Some y /\
    matvec (a_times_inv_r_op A R 2) 0 h = (Ok (length h), k2) /\
    rmatvec (a_times_inv_r_op A R 2) (length h) k2 = (Ok (length k2), k3) /\
    k3 !! length k2 = Some y.
Proof.
  assert (Hne : 2 <> 1) by discriminate.
  exact (lr_precond_gram_is_composition A R 2 1 2 h h 0 0 [q 6; q 9]
           eq_refl eq_refl R_no_zero h_scratch_2 h_scratch_1 Hne
           h_scratch_2 eq_refl eq_refl eq_refl).
Defined.

(** X4 at the instance, with [u = [6, 9]]. *)
Lemma gram_quadratic_form_witness :
  exists y h2,
    matvec (lr_precond_gram_op A R 2 1) 0 h = (Ok (length h), h2) /\
    h2 !! length h = Some y /\
    dot y [q 6; q 9]
    = dot (forward_val A R [q 6; q 9]) (forward_val A R [q 6; q 9]).
Proof.
  assert (Hne : 2 <> 1) by discriminate.
  exact (gram_quadratic_form A R 2 1 h 0 [q 6; q 9] eq_refl eq_refl
           R_upper R_diag h_scratch_2 h_scratch_1 Hne eq_refl eq_refl).
Defined.

(** X6 at the instance: a solver that raises [SolverError 3]. *)
Lemma solver_exception_propagates_witness :
  exists call,
    upper_tri_precond_lsqr (raising_solver (SolverError 3)) A 1 R tol 10
      None (h, [])
    = (Raise (SolverError 3), (sc_heap call, [call])).
Proof.
  pose proof (solver_exception_propagates (raising_solver (SolverError 3))
                (raising_solver (SolverError 3)) A 1 R N tol 10 None h [])
    as Hthm.
  cbv zeta in Hthm. destruct Hthm as (Hlsqr & _).
  destruct Hlsqr as [(e' & h' & Hrun & _) | (call & _ & Hraise)].
  - exfalso. vm_compute in Hrun. discriminate.
  - exists call. exact (Hraise (SolverError 3) (sc_heap call) eq_refl).
Defined.

(** X9 at the instance: the result of a forward application, at
    reference 3, after an adjoint and another forward application. *)
Lemma earlier_results_survive_witness :
  apply_all (a_times_inv_r_op A R 2) [Adjoint 1; Forward 0]
    (<[2 := trsv R NoTrans [q 6; q 9]]> h ++ [forward_val A R [q 6; q 9]])
    !! 3
  = Some (forward_val A R [q 6; q 9]).
Proof.
  assert (H2 : 2 < length h) by (simpl; lia).
  assert (H1 : 1 < length h) by (simpl; lia).
  pose proof (earlier_results_survive A R N 2 2 1 h H2 H2 H1) as Hthm.
  cbv zeta in Hthm. destruct Hthm as (Hs & _).
  apply (Hs (Forward 0) 3 _ _ [Adjoint 1; Forward 0]).
  - apply (a_times_inv_r_op_matvec A R 2 0 h [q 6; q 9] h_scratch_2
             eq_refl eq_refl eq_refl eq_refl R_no_zero).
  - reflexivity.
Defined.

(** X10 at the instance: with the identity of order 2 the forward
    application to [[6, 9]] returns [A [6, 9]]. *)
Lemma identity_preconditioner_witness :
  exists h2,
    matvec (a_times_inv_r_op A (eye 2) 2) 0 h = (Ok (length h), h2) /\
    h2 !! length h = Some (matvec_val A [q 6; q 9]).
Proof.
  destruct (identity_preconditioner initial_iterate_solver A 2 h 0 1
              [q 6; q 9] [q 1; q 2; q 3] h_scratch_2 eq_refl eq_refl
              eq_refl eq_refl) as ((h2 & h3 & Hmv & Hres & _) & _).
  exists h2. split; assumption.
Defined.

End Demonstration.
